(** * streamtotext: the audio pipeline of [streamtotext/audio.py]

    A shallow embedding of the chunk utilities, the block iteration
    protocol, the queue and wave blocks, the wave source, the resegmenting
    and remembering iterators, the rate converter and the squelch
    processor, with the properties the specification states about them
    and further properties of the code.

    Conventions.
    - Python integers are [Z]; [bytes] and [memoryview] objects are
      [list byte] (a memoryview is a read-only view of the same bytes).
    - A raised exception is a value of [exn]; a call returns [result A].
      Stateful methods return the result together with the new state, so
      that the state reached when an exception propagates is explicit.
    - The products [level * .8], [len(rms_vals) * .5] and
      [threshold * len(rms_vals)] are binary64 products in the source.
      They are taken here in exact rational arithmetic ([Q]), with [.8]
      read as 4/5 and [.5] as 1/2; levels and thresholds are rationals. *)

From Stdlib Require Import ZArith QArith Qround List Bool Lia Lqa Permutation Sorted.
From Stdlib.Strings Require Import Byte.
Import ListNotations.

#[local] Open Scope Z_scope.

(** ** Exceptions and results *)

Inductive exn : Type :=
| StopAsyncIteration
| AssertionError
| IndexError
| ZeroDivisionError
| ValueError
| TypeError
| AttributeError
| AudioopError
| NoMoreChunksError
| NoDefaultInputDeviceError.

Inductive result (A : Type) : Type :=
| Ok (a : A)
| Raise (e : exn).

Arguments Ok {A} a.
Arguments Raise {A} e.

Definition bind {A B : Type} (r : result A) (k : A -> result B) : result B :=
  match r with
  | Ok a => k a
  | Raise e => Raise e
  end.

Notation "x <- r ;; k" := (bind r (fun x => k))
  (at level 61, r at next level, right associativity).

Fixpoint mapM {A B : Type} (f : A -> result B) (l : list A) : result (list B) :=
  match l with
  | [] => Ok []
  | a :: l' => b <- f a ;; bs <- mapM f l' ;; Ok (b :: bs)
  end.

(** ** Python sequence indexing *)

Definition bytes := list byte.

Definition len {A : Type} (l : list A) : Z := Z.of_nat (length l).

(** The position a slice bound [i] denotes in a sequence of length [n]:
    negative bounds count from the end, and every bound is clamped to
    [0 .. n]. *)
Definition slice_bound (n i : Z) : nat :=
  Z.to_nat (if i <? 0 then Z.max 0 (n + i) else Z.min i n).

(** [s[:i]] *)
Definition slice_to {A : Type} (s : list A) (i : Z) : list A :=
  firstn (slice_bound (len s) i) s.

(** [s[i:]] *)
Definition slice_from {A : Type} (s : list A) (i : Z) : list A :=
  skipn (slice_bound (len s) i) s.

(** [s[i]], raising [IndexError] out of range. *)
Definition index {A : Type} (s : list A) (i : Z) : result A :=
  let j := if i <? 0 then len s + i else i in
  if j <? 0 then Raise IndexError
  else match nth_error s (Z.to_nat j) with
       | Some a => Ok a
       | None => Raise IndexError
       end.

(** The last [n] items of [l]. *)
Definition lastn {A : Type} (n : nat) (l : list A) : list A :=
  skipn (length l - n) l.

(** [sorted(l)] on integers: the ascending rearrangement of [l]. *)
Fixpoint insert_sorted (x : Z) (l : list Z) : list Z :=
  match l with
  | [] => [x]
  | y :: l' => if x <=? y then x :: l else y :: insert_sorted x l'
  end.

Fixpoint sorted (l : list Z) : list Z :=
  match l with
  | [] => []
  | x :: l' => insert_sorted x (sorted l')
  end.

(** [int(q)]: truncation toward zero. *)
Definition Qtrunc (q : Q) : Z := Z.quot (Qnum q) (Zpos (Qden q)).

Definition Qltb (a b : Q) : bool := negb (Qle_bool b a).

(** ** Audio chunks *)

Record AudioChunk : Type := mkAudioChunk {
  start_time : Z;
  audio : bytes;
  width : Z;
  freq : Z
}.

(** [int(len(chunk.audio) / chunk.width)] *)
Definition chunk_sample_cnt (chunk : AudioChunk) : result Z :=
  if width chunk =? 0 then Raise ZeroDivisionError
  else Ok (Z.quot (len (audio chunk)) (width chunk)).

Definition merge_chunks (chunks : list AudioChunk) : result AudioChunk :=
  match chunks with
  | [] => Raise AssertionError
  | c0 :: _ =>
      Ok (mkAudioChunk (start_time c0)
                       (concat (map audio chunks))
                       (width c0)
                       (freq c0))
  end.

Definition split_chunk (chunk : AudioChunk) (sample_offset : Z)
  : AudioChunk * AudioChunk :=
  let offset := sample_offset * width chunk in
  let first_audio := slice_to (audio chunk) offset in
  let second_audio := slice_from (audio chunk) offset in
  (mkAudioChunk (start_time chunk) first_audio (width chunk) (freq chunk),
   mkAudioChunk (start_time chunk) second_audio (width chunk) (freq chunk)).

(** ** Iteration protocol *)

(** An asynchronous iterator: [__anext__] either returns an item or raises
    ([StopAsyncIteration] at exhaustion), and leaves a new state. *)
Class AsyncIterator (S A : Type) := anext : S -> result A * S.

(** The abstract method [_next_chunk] that every block subclass provides. *)
Class ChunkProducer (S : Type) := next_chunk : S -> result AudioChunk * S.

(** ** AudioBlock *)

(** [stopped] is the state of the [_stopped] event; [impl] holds the fields
    of the subclass. *)
Record AudioBlock (S : Type) : Type := mkBlock {
  stopped : bool;
  impl : S
}.

Arguments mkBlock {S} stopped impl.
Arguments stopped {S} _.
Arguments impl {S} _.

Definition ended {S : Type} (b : AudioBlock S) : bool := stopped b.

Definition block_end {S : Type} (b : AudioBlock S) : AudioBlock S :=
  mkBlock true (impl b).

(** [__anext__] awaits the first of two tasks: the production of the next
    chunk, and the wait on [_stopped].  Which one completes first depends
    on the scheduler and on who else calls [end()]; it is an input of the
    model.  [StoppedFirst] means the wait on [_stopped] returned while the
    chunk was still pending: the event is then set, and the cancelled
    production leaves the subclass state as it was. *)
Inductive race : Type := ChunkFirst | StoppedFirst.

Definition block_anext {S : Type} `{ChunkProducer S} (w : race) (b : AudioBlock S)
  : result AudioChunk * AudioBlock S :=
  if stopped b then (Raise StopAsyncIteration, b)
  else match w with
       | StoppedFirst => (Raise StopAsyncIteration, block_end b)
       | ChunkFirst =>
           let (r, s') := next_chunk (impl b) in
           let b' := mkBlock (stopped b) s' in
           match r with
           | Raise StopAsyncIteration => (Raise StopAsyncIteration, block_end b')
           | _ => (r, b')
           end
       end.

(** Iterating a block that nobody ends concurrently. *)
#[export] Instance block_iterator {S : Type} `{ChunkProducer S}
  : AsyncIterator (AudioBlock S) AudioChunk := block_anext ChunkFirst.

(** The operations a holder of a block can perform on it. *)
Inductive block_op : Type :=
| op_end
| op_anext (w : race)
| op_ended.

Inductive block_obs : Type :=
| obs_none
| obs_next (r : result AudioChunk)
| obs_ended (b : bool).

Definition block_step {S : Type} `{ChunkProducer S} (op : block_op) (b : AudioBlock S)
  : block_obs * AudioBlock S :=
  match op with
  | op_end => (obs_none, block_end b)
  | op_anext w => let (r, b') := block_anext w b in (obs_next r, b')
  | op_ended => (obs_ended (ended b), b)
  end.

Fixpoint block_run {S : Type} `{ChunkProducer S} (ops : list block_op) (b : AudioBlock S)
  : list block_obs * AudioBlock S :=
  match ops with
  | [] => ([], b)
  | op :: ops' =>
      let (o, b') := block_step op b in
      let (os, b'') := block_run ops' b' in
      (o :: os, b'')
  end.

(** A producer that hands out a fixed finite sequence of chunks and then
    signals exhaustion: what a wave block does with the frames of its file,
    and a queue block with the chunks queued before the [None] sentinel. *)
#[export] Instance replay_producer : ChunkProducer (list AudioChunk) :=
  fun l => match l with
           | [] => (Raise StopAsyncIteration, [])
           | c :: l' => (Ok c, l')
           end.

Definition Upstream : Type := AudioBlock (list AudioChunk).

Definition open_block (chunks : list AudioChunk) : Upstream := mkBlock false chunks.

(** Pulling items until the iterator raises; [None] as the exception means
    the fuel ran out first. *)
Fixpoint drain {S A : Type} `{AsyncIterator S A} (fuel : nat) (s : S)
  : list A * option exn * S :=
  match fuel with
  | O => ([], None, s)
  | Datatypes.S fuel' =>
      match anext s with
      | (Raise e, s') => ([], Some e, s')
      | (Ok a, s') =>
          let '(items, e, s'') := drain fuel' s' in (a :: items, e, s'')
      end
  end.

(** ** EvenChunkIterator *)

Record EvenChunkIterator : Type := mkEven {
  _iterator : Upstream;
  _chunk_size : Z;
  _cur_chunk : option AudioChunk
}.

(** The body of the [while] loop from the point where [chunk] has been
    obtained and [_cur_chunk] cleared.  The upstream block is given by its
    flag and the chunks it has yet to deliver; the next turn of the loop
    pulls from it ([block_anext ChunkFirst], see [even_loop_pull]). *)
Fixpoint even_loop (chunk_size : Z) (chunk : AudioChunk)
         (up_stopped : bool) (up_chunks : list AudioChunk)
         (sample_queue : list AudioChunk) (ret_chunk_size : Z)
         {struct up_chunks} : result AudioChunk * EvenChunkIterator :=
  let here := mkEven (mkBlock up_stopped up_chunks) chunk_size in
  match chunk_sample_cnt chunk with
  | Raise e => (Raise e, here None)
  | Ok cur_chunk_size =>
      let ret_chunk_size := ret_chunk_size + cur_chunk_size in
      let sample_queue := sample_queue ++ [chunk] in
      if chunk_size <? ret_chunk_size then
        match merge_chunks sample_queue with
        | Raise e => (Raise e, here None)
        | Ok merged_chunk =>
            let (ret_chunk, leftover_chunk) := split_chunk merged_chunk chunk_size in
            (Ok ret_chunk, here (Some leftover_chunk))
        end
      else if ret_chunk_size <? chunk_size then
        if up_stopped then (Raise StopAsyncIteration, here None)
        else match up_chunks with
             | [] => (Raise StopAsyncIteration,
                      mkEven (mkBlock true []) chunk_size None)
             | c :: up_chunks' =>
                 even_loop chunk_size c false up_chunks' sample_queue ret_chunk_size
             end
      else (merge_chunks sample_queue, here None)
  end.

Definition even_anext (e : EvenChunkIterator) : result AudioChunk * EvenChunkIterator :=
  let chunk_size := _chunk_size e in
  if 0 <? chunk_size then
    match _cur_chunk e with
    | Some chunk =>
        even_loop chunk_size chunk (stopped (_iterator e)) (impl (_iterator e)) [] 0
    | None =>
        match block_anext ChunkFirst (_iterator e) with
        | (Raise ex, up) => (Raise ex, mkEven up chunk_size None)
        | (Ok chunk, up) => even_loop chunk_size chunk (stopped up) (impl up) [] 0
        end
    end
  else (merge_chunks [], e).

#[export] Instance even_iterator : AsyncIterator EvenChunkIterator AudioChunk :=
  even_anext.

Definition EvenChunkIterator_init (iterator : Upstream) (chunk_size : Z)
  : EvenChunkIterator := mkEven iterator chunk_size None.

(** ** RememberingIterator *)

(** [deque(maxlen=n).append(x)] *)
Definition deque_append {A : Type} (maxlen : Z) (buff : list A) (x : A) : list A :=
  let b := buff ++ [x] in
  if maxlen <? len b then tl b else b.

Record RememberingIterator (S A : Type) : Type := mkRemembering {
  ri_iterator : S;
  memory_size : Z;
  _buff : list A
}.

Arguments mkRemembering {S A} ri_iterator memory_size _buff.
Arguments ri_iterator {S A} _.
Arguments memory_size {S A} _.
Arguments _buff {S A} _.

(** [deque(maxlen=memory_size)] refuses a negative [maxlen]. *)
Definition RememberingIterator_init {S A : Type} (iterator : S) (memory_size : Z)
  : result (RememberingIterator S A) :=
  if memory_size <? 0 then Raise ValueError
  else Ok (mkRemembering iterator memory_size []).

Definition remembering_anext {S A : Type} `{AsyncIterator S A}
           (r : RememberingIterator S A) : result A * RememberingIterator S A :=
  match anext (ri_iterator r) with
  | (Raise e, it) => (Raise e, mkRemembering it (memory_size r) (_buff r))
  | (Ok ret, it) =>
      (Ok ret, mkRemembering it (memory_size r) (deque_append (memory_size r) (_buff r) ret))
  end.

#[export] Instance remembering_iterator {S A : Type} `{AsyncIterator S A}
  : AsyncIterator (RememberingIterator S A) A := remembering_anext.

Definition memory {S A : Type} (r : RememberingIterator S A) : list A := _buff r.

(** Successive successful pulls from a remembering iterator, with the items
    they returned. *)
Inductive pulls {S A : Type} `{AsyncIterator S A}
  : RememberingIterator S A -> list A -> RememberingIterator S A -> Prop :=
| pulls_nil : forall r, pulls r [] r
| pulls_cons : forall r0 x r1 xs r,
    remembering_anext r0 = (Ok x, r1) ->
    pulls r1 xs r ->
    pulls r0 (x :: xs) r.

(** ** Rate conversion *)

Module RateConvert.
Section WithResampler.

(** [audioop.ratecv(fragment, width, nchannels, inrate, outrate, state)]
    and the type of its filter state are the library's. *)
Variable RState : Type.
Variable ratecv :
  bytes -> Z -> Z -> Z -> Z -> option RState -> result (bytes * RState).

Record _RateConvertBlock (S : Type) : Type := mkRateConvertBlock {
  _src_block : S;
  _n_channels : Z;
  _out_rate : Z;
  _state : option RState
}.

Arguments mkRateConvertBlock {S} _ _ _ _.
Arguments _src_block {S} _.
Arguments _n_channels {S} _.
Arguments _out_rate {S} _.
Arguments _state {S} _.

Definition init {S : Type} (src_block : S) (n_channels out_rate : Z)
  : _RateConvertBlock S :=
  mkRateConvertBlock src_block n_channels out_rate None.

Definition _next_chunk {S : Type} `{AsyncIterator S AudioChunk}
           (b : _RateConvertBlock S) : result AudioChunk * _RateConvertBlock S :=
  match anext (_src_block b) with
  | (Raise e, src) =>
      (Raise e, mkRateConvertBlock src (_n_channels b) (_out_rate b) (_state b))
  | (Ok chunk, src) =>
      match ratecv (audio chunk) 2 (_n_channels b) (freq chunk) (_out_rate b) (_state b) with
      | Raise e =>
          (Raise e, mkRateConvertBlock src (_n_channels b) (_out_rate b) (_state b))
      | Ok (new_aud, st) =>
          (Ok (mkAudioChunk (start_time chunk) new_aud 2 (_out_rate b)),
           mkRateConvertBlock src (_n_channels b) (_out_rate b) (Some st))
      end
  end.

#[export] Instance producer {S : Type} `{AsyncIterator S AudioChunk}
  : ChunkProducer (_RateConvertBlock S) := _next_chunk.

(** Iterating the block, with nobody ending it, until it raises. *)
Definition run {S : Type} `{AsyncIterator S AudioChunk} (fuel : nat)
           (b : AudioBlock (_RateConvertBlock S))
  : list AudioChunk * option exn * AudioBlock (_RateConvertBlock S) :=
  drain fuel b.

(** The conversion of a whole sequence as the specification words it: the
    filter state starts unset, and the state returned for one chunk is
    the state given for the next.  The result is the converted chunks,
    the exception that ends the sequence, and the last state. *)
Fixpoint threaded (n_channels out_rate : Z) (st : option RState)
         (chunks : list AudioChunk) : list AudioChunk * exn * option RState :=
  match chunks with
  | [] => ([], StopAsyncIteration, st)
  | chunk :: rest =>
      match ratecv (audio chunk) 2 n_channels (freq chunk) out_rate st with
      | Raise e => ([], e, st)
      | Ok (new_aud, st') =>
          let '(outs, e, last) := threaded n_channels out_rate (Some st') rest in
          (mkAudioChunk (start_time chunk) new_aud 2 out_rate :: outs, e, last)
      end
  end.

End WithResampler.

Arguments mkRateConvertBlock {RState S} _ _ _ _.
Arguments _src_block {RState S} _.
Arguments _n_channels {RState S} _.
Arguments _out_rate {RState S} _.
Arguments _state {RState S} _.
Arguments init {RState S} _ _ _.

End RateConvert.

(** ** Squelch *)

Definition MemIter : Type := RememberingIterator EvenChunkIterator AudioChunk.

(** A source that delivers a fixed sequence of blocks, each a fixed
    sequence of chunks. *)
Record ReplaySource : Type := mkReplaySource {
  src_running : bool;
  src_blocks : list (list AudioChunk)
}.

Definition source_start (src : ReplaySource) : ReplaySource :=
  mkReplaySource true (src_blocks src).

Definition source_anext (src : ReplaySource) : result Upstream * ReplaySource :=
  match src_blocks src with
  | [] => (Raise StopAsyncIteration, src)
  | b :: rest => (Ok (open_block b), mkReplaySource (src_running src) rest)
  end.

(** The fields of a [SquelchedBlock] other than [_source]; [_source] refers
    to the remembering iterator that the [SquelchedSource] keeps as
    [_mem_iter], and the operations of the block take that shared object
    and give it back. *)
Record SquelchedBlock : Type := mkSquelchedBlock {
  sb_squelch_level : option Q;
  _sent_mem : bool
}.

(** [_src_block] is the block that [_mem_iter._iterator._iterator] refers
    to as well: once [_mem_iter] is bound the live state of the block is
    the one inside it. *)
Record SquelchedSource : Type := mkSquelchedSource {
  running : bool;
  _source : ReplaySource;
  _sample_size : Z;
  squelch_level : option Q;
  _prefix_samples : Z;
  _sample_width : Z;
  _src_block : option Upstream;
  _mem_iter : option MemIter
}.

Definition SquelchedSource_init (source : ReplaySource) (sample_size : Z)
           (squelch_level : option Q) (prefix_samples : Z) : SquelchedSource :=
  mkSquelchedSource false source sample_size squelch_level prefix_samples 2 None None.

Definition set_level (s : SquelchedSource) (level : option Q) : SquelchedSource :=
  mkSquelchedSource (running s) (_source s) (_sample_size s) level
                    (_prefix_samples s) (_sample_width s) (_src_block s) (_mem_iter s).

Definition set_source (s : SquelchedSource) (src : ReplaySource) : SquelchedSource :=
  mkSquelchedSource (running s) src (_sample_size s) (squelch_level s)
                    (_prefix_samples s) (_sample_width s) (_src_block s) (_mem_iter s).

Definition set_src_block (s : SquelchedSource) (b : Upstream) : SquelchedSource :=
  mkSquelchedSource (running s) (_source s) (_sample_size s) (squelch_level s)
                    (_prefix_samples s) (_sample_width s) (Some b) (_mem_iter s).

Definition set_mem_iter (s : SquelchedSource) (m : MemIter) : SquelchedSource :=
  mkSquelchedSource (running s) (_source s) (_sample_size s) (squelch_level s)
                    (_prefix_samples s) (_sample_width s) (_src_block s) (Some m).

(** [assert(self.squelch_level is not None)], then the processor's own
    [start] (which sets [running]) and the wrapped source's. *)
Definition squelched_start (s : SquelchedSource) : result unit * SquelchedSource :=
  match squelch_level s with
  | None => (Raise AssertionError, s)
  | Some _ =>
      (Ok tt,
       mkSquelchedSource true (source_start (_source s)) (_sample_size s)
                         (squelch_level s) (_prefix_samples s) (_sample_width s)
                         (_src_block s) (_mem_iter s))
  end.

Section WithRms.

(** [audioop.rms(fragment, width)] is the library's; it raises on a
    fragment that is not a whole number of frames or on an unsupported
    width. *)
Variable rms : bytes -> Z -> result Z.

Definition check_squelch (level : option Q) (is_triggered : bool)
           (chunks : list AudioChunk) : result bool :=
  rms_vals <- mapM (fun x => rms (audio x) (width x)) chunks ;;
  median_rms <- index (sorted rms_vals)
                      (Qtrunc (inject_Z (len rms_vals) * (1 # 2))) ;;
  match level with
  | None => Raise TypeError
  | Some level =>
      if is_triggered then
        if Qltb (inject_Z median_rms) (level * (4 # 5)) then Ok false else Ok true
      else
        if Qltb level (inject_Z median_rms) then Ok true else Ok false
  end.

(** The part of [detect_squelch_level] that follows the collection loop;
    [audio_chunks] is the deque the loop has filled from the resegmented
    blocks of the source during [detect_time] seconds. *)
Definition detect_squelch_level (s : SquelchedSource)
           (audio_chunks : list AudioChunk) (threshold : Q)
  : result Z * SquelchedSource :=
  let kept :=
    filter (fun x => len (audio x) =? _sample_size s * _sample_width s)
           audio_chunks in
  match (rms_vals <- mapM (fun x => rms (audio x) (_sample_width s)) kept ;;
         index (slice_from (sorted rms_vals)
                           (Qtrunc (threshold * inject_Z (len rms_vals)))) 0) with
  | Raise e => (Raise e, s)
  | Ok level => (Ok level, set_level s (Some (inject_Z level)))
  end.

Definition default_threshold : Q := 4 # 5.

Definition squelched_next_chunk (st : MemIter * SquelchedBlock)
  : result AudioChunk * (MemIter * SquelchedBlock) :=
  let (source, b) := st in
  if negb (_sent_mem b) then
    (merge_chunks (memory source),
     (source, mkSquelchedBlock (sb_squelch_level b) true))
  else
    match anext source with
    | (Raise e, source') => (Raise e, (source', b))
    | (Ok chunk, source') =>
        match check_squelch (sb_squelch_level b) true (memory source') with
        | Raise e => (Raise e, (source', b))
        | Ok true => (Ok chunk, (source', b))
        | Ok false => (Raise StopAsyncIteration, (source', b))
        end
    end.

#[export] Instance squelched_producer : ChunkProducer (MemIter * SquelchedBlock) :=
  squelched_next_chunk.

(** [__anext__] of a squelched block, given the shared remembering
    iterator and giving it back. *)
Definition squelched_block_anext (w : race) (source : MemIter)
           (b : AudioBlock SquelchedBlock)
  : result AudioChunk * MemIter * AudioBlock SquelchedBlock :=
  let (r, pb) := block_anext w (mkBlock (stopped b) (source, impl b)) in
  (r, fst (impl pb), mkBlock (stopped pb) (snd (impl pb))).

(** The state of [_src_block] as the processor sees it. *)
Definition src_block_ended (s : SquelchedSource) : option bool :=
  match _mem_iter s with
  | Some m => Some (ended (_iterator (ri_iterator m)))
  | None => option_map ended (_src_block s)
  end.

(** The first statement of [_next_block]: take a new block from the
    source when there is none or the current one has ended. *)
Definition refresh (s : SquelchedSource) : result MemIter * SquelchedSource :=
  match src_block_ended s with
  | Some false =>
      match _mem_iter s with
      | Some m => (Ok m, s)
      | None => (Raise AttributeError, s)
      end
  | _ =>
      match source_anext (_source s) with
      | (Raise e, src) => (Raise e, set_source s src)
      | (Ok blk, src) =>
          let s1 := set_src_block (set_source s src) blk in
          let even_iter := EvenChunkIterator_init blk (_sample_size s) in
          match RememberingIterator_init even_iter (_prefix_samples s) with
          | Raise e => (Raise e, s1)
          | Ok m => (Ok m, set_mem_iter s1 m)
          end
      end
  end.

(** The [async for] loop of [_next_block]; [None] when the fuel runs out
    before the loop has left. *)
Fixpoint scan (fuel : nat) (level : option Q) (m : MemIter)
  : option (result unit * MemIter) :=
  match fuel with
  | O => None
  | S fuel' =>
      match anext m with
      | (Raise e, m') => Some (Raise e, m')
      | (Ok _, m') =>
          match check_squelch level false (memory m') with
          | Raise e => Some (Raise e, m')
          | Ok true => Some (Ok tt, m')
          | Ok false => scan fuel' level m'
          end
      end
  end.

Definition _next_block (fuel : nat) (s : SquelchedSource)
  : option (result (AudioBlock SquelchedBlock) * SquelchedSource) :=
  match refresh s with
  | (Raise e, s') => Some (Raise e, s')
  | (Ok m, s') =>
      match scan fuel (squelch_level s') m with
      | None => None
      | Some (Raise e, m') => Some (Raise e, set_mem_iter s' m')
      | Some (Ok _, m') =>
          Some (Ok (mkBlock false (mkSquelchedBlock (squelch_level s') false)),
                set_mem_iter s' m')
      end
  end.


End WithRms.

(** ** Reference instances of the library primitives

    Used to run the model on concrete audio. *)

Fixpoint le_value (bs : bytes) : Z :=
  match bs with
  | [] => 0
  | b :: rest => Z.of_N (Byte.to_N b) + 256 * le_value rest
  end.

Definition signed (w : nat) (v : Z) : Z :=
  if v <? 2 ^ (8 * Z.of_nat w - 1) then v else v - 2 ^ (8 * Z.of_nat w).

Fixpoint frames (fuel w : nat) (a : bytes) : list bytes :=
  match fuel with
  | O => []
  | S fuel' =>
      match a with
      | [] => []
      | _ => firstn w a :: frames fuel' w (skipn w a)
      end
  end.

(** Root mean square of little-endian signed samples, rounded down. *)
Definition rms_le (fragment : bytes) (width : Z) : result Z :=
  if negb ((1 <=? width) && (width <=? 4)) then Raise AudioopError
  else if negb (len fragment mod width =? 0) then Raise AudioopError
  else
    let w := Z.to_nat width in
    let xs := map (fun f => signed w (le_value f)) (frames (length fragment) w fragment) in
    match xs with
    | [] => Ok 0
    | _ => Ok (Z.sqrt (fold_right (fun x acc => x * x + acc) 0 xs / len xs))
    end.

(** A resampler stand-in that passes the audio through and whose state
    counts the bytes converted so far. *)
Definition ratecv_count (fragment : bytes) (width nchannels inrate outrate : Z)
           (state : option Z) : result (bytes * Z) :=
  Ok (fragment, match state with None => 0 | Some n => n end + len fragment).

(** ** Sample inputs *)

(** One 16-bit sample whose low byte is [b]. *)
Definition tone (b : byte) : AudioChunk := mkAudioChunk 0 [b; x00] 2 16000.

(** [n] 16-bit samples, every byte being [b]. *)
Definition steady (t : Z) (b : byte) (n : nat) : AudioChunk :=
  mkAudioChunk t (repeat b (2 * n)) 2 16000.

Definition three_hundreds : list AudioChunk :=
  [steady 0 x01 100; steady 1 x02 100; steady 2 x03 100].

(** RMS 10, 20, ..., 100. *)
Definition ten_tones : list AudioChunk :=
  map tone [x0a; x14; x1e; x28; x32; x3c; x46; x50; x5a; x64].


(** A block that has been ended while its producer still holds chunks. *)
Definition ended_block : Upstream := mkBlock true three_hundreds.

(** A processor built without a squelch level. *)
Definition unset_source : SquelchedSource :=
  SquelchedSource_init (mkReplaySource false [three_hundreds]) 1600 None 4.

(** A window of capacity 4 over the ten tones, before and after six pulls. *)
Definition window_start : RememberingIterator Upstream AudioChunk :=
  mkRemembering (open_block ten_tones) 4 [].

Definition window_after_six : RememberingIterator Upstream AudioChunk :=
  mkRemembering (open_block (map tone [x46; x50; x5a; x64])) 4
                (map tone [x1e; x28; x32; x3c]).

(** ** Statistics of a window, as the specification words them *)


Section WindowStatistics.

Variable rms : bytes -> Z -> result Z.



End WindowStatistics.



Definition calibrating_source : SquelchedSource :=
  SquelchedSource_init (mkReplaySource false []) 1 None 4.

(** A processor with level 5 and a pre-roll window of 4 over a block
    whose first one-sample chunk already has RMS 10. *)
Definition eager_source : SquelchedSource :=
  SquelchedSource_init (mkReplaySource false [ten_tones]) 1 (Some (5 # 1)) 4.

(** A processor with level 25 over the same block: the median of the
    window first exceeds the level when the fourth chunk has come in. *)
Definition patient_source : SquelchedSource :=
  SquelchedSource_init (mkReplaySource false [ten_tones]) 1 (Some (25 # 1)) 4.

(** The window of a processor never holds more than its capacity, which is
    [prefix_samples]. *)
Definition window_bounded (s : SquelchedSource) : Prop :=
  match _mem_iter s with
  | Some m => memory_size m = _prefix_samples s /\ len (memory m) <= memory_size m
  | None => True
  end.

(** ** Resegmenting: vocabulary *)

(** A chunk of width [w] that holds a whole number of samples. *)
Definition aligned (w : Z) (c : AudioChunk) : Prop :=
  width c = w /\ (w | len (audio c)).

(** The bytes an upstream block will still deliver. *)
Definition upstream_bytes (up_stopped : bool) (up_chunks : list AudioChunk) : bytes :=
  if up_stopped then [] else concat (map audio up_chunks).

(** The bytes a resegmenting iterator has not yielded yet: its leftover
    chunk, then what the upstream block will deliver. *)
Definition pending (e : EvenChunkIterator) : bytes :=
  match _cur_chunk e with
  | Some c => audio c
  | None => []
  end ++ upstream_bytes (stopped (_iterator e)) (impl (_iterator e)).

Definition even_wf (w : Z) (e : EvenChunkIterator) : Prop :=
  Forall (aligned w) (impl (_iterator e)) /\
  match _cur_chunk e with
  | Some c => aligned w c
  | None => True
  end.

(** The number of samples in a sequence of chunks. *)
Fixpoint total_samples (chunks : list AudioChunk) : result Z :=
  match chunks with
  | [] => Ok 0
  | c :: rest =>
      n <- chunk_sample_cnt c ;; t <- total_samples rest ;; Ok (n + t)
  end.

(** What one [__anext__] of a resegmenting iterator does with the pending
    bytes [P]: with at least [chunk_size] samples pending it returns the
    first [chunk_size] of them and keeps the rest pending; with fewer it
    raises [StopAsyncIteration], keeps no leftover and has seen the
    upstream block end. *)
Definition anext_post (w chunk_size : Z) (P : bytes)
           (r : result AudioChunk * EvenChunkIterator) : Prop :=
  let n := Z.to_nat (chunk_size * w) in
  even_wf w (snd r) /\
  _chunk_size (snd r) = chunk_size /\
  ((n <= length P)%nat ->
   exists c, fst r = Ok c /\ width c = w /\ audio c = firstn n P /\
             pending (snd r) = skipn n P) /\
  ((length P < n)%nat ->
   fst r = Raise StopAsyncIteration /\
   _cur_chunk (snd r) = None /\
   stopped (_iterator (snd r)) = true).

(** ** Further sample inputs *)

(** Four chunks of 100 samples with start times 10, 11, 12, 13. *)
Definition four_hundreds : list AudioChunk :=
  [steady 10 x01 100; steady 11 x02 100; steady 12 x03 100; steady 13 x04 100].

(** ** QueueAudioBlock *)

(** The queue of a queue block: chunks, and [None] as the sentinel that
    ends the stream.  The queue is unbounded: [put] never waits. *)
Definition ChunkQueue : Type := list (option AudioChunk).

(** [await self._q.put(chunk)] *)
Definition add_chunk (q : ChunkQueue) (chunk : option AudioChunk) : ChunkQueue :=
  q ++ [chunk].

(** [_next_chunk]; there is no result while [get()] waits on an empty
    queue. *)
Definition queue_next_chunk (q : ChunkQueue)
  : option (result AudioChunk * ChunkQueue) :=
  match q with
  | [] => None
  | None :: q' => Some (Raise StopAsyncIteration, q')
  | Some chunk :: q' => Some (Ok chunk, q')
  end.

(** [__anext__] of a queue block.  With an item queued the chunk task
    completes in its first step and is done when the wait returns; on an
    empty queue the call has no result until a chunk is put or the block
    is ended. *)
Definition queue_block_anext (b : AudioBlock ChunkQueue)
  : option (result AudioChunk * AudioBlock ChunkQueue) :=
  if stopped b then Some (Raise StopAsyncIteration, b)
  else match queue_next_chunk (impl b) with
       | None => None
       | Some (Raise StopAsyncIteration, q) =>
           Some (Raise StopAsyncIteration, mkBlock true q)
       | Some (r, q) => Some (r, mkBlock false q)
       end.

(** How an iteration over a queue block stops. *)
Inductive wait_end : Type :=
| Raised (e : exn)
| Waiting
| Unfinished.

Fixpoint queue_drain (fuel : nat) (b : AudioBlock ChunkQueue)
  : list AudioChunk * wait_end * AudioBlock ChunkQueue :=
  match fuel with
  | O => ([], Unfinished, b)
  | S fuel' =>
      match queue_block_anext b with
      | None => ([], Waiting, b)
      | Some (Raise e, b') => ([], Raised e, b')
      | Some (Ok c, b') =>
          let '(items, e, b'') := queue_drain fuel' b' in (c :: items, e, b'')
      end
  end.

(** The resegmenting iterator over [four_hundreds] after its first output
    of 160 samples: 40 samples of the second chunk are left over. *)
Definition after_first_output : EvenChunkIterator :=
  mkEven (open_block [steady 12 x03 100; steady 13 x04 100]) 160
         (Some (mkAudioChunk 10 (repeat x02 80) 2 16000)).

(** One-sample chunks of width 1, as an 8-bit source delivers them. *)
Definition eight_bit_chunks : list AudioChunk :=
  [mkAudioChunk 0 [x0a] 1 8000; mkAudioChunk 0 [x14] 1 8000].

(** ** The squelch processor: vocabulary *)

(** The chunks of the source and of the current resegmenting iterator have
    width [w] and hold whole samples, and the iterator has a positive
    chunk size. *)
Definition squelch_wf (w : Z) (s : SquelchedSource) : Prop :=
  Forall (Forall (aligned w)) (src_blocks (_source s)) /\
  match _mem_iter s with
  | Some m => even_wf w (ri_iterator m) /\ 0 < _chunk_size (ri_iterator m)
  | None => True
  end.

(** A number of turns that the loop of [_next_block] cannot exceed: one
    more than the bytes pending in the current iterator or in the next
    block of the source, whichever it will scan. *)
Definition squelch_fuel (s : SquelchedSource) : nat :=
  S (match _mem_iter s with
     | Some m => length (pending (ri_iterator m))
     | None => O
     end
     + match src_blocks (_source s) with
       | b :: _ => length (concat (map audio b))
       | [] => O
       end).

(** A processor whose window has no room. *)
Definition windowless_source : SquelchedSource :=
  SquelchedSource_init (mkReplaySource false [ten_tones]) 1 (Some (5 # 1)) 0.

(** A processor whose level no tone of the block reaches. *)
Definition deaf_source : SquelchedSource :=
  SquelchedSource_init (mkReplaySource false [ten_tones]) 1 (Some (1000 # 1)) 4.

(** ** Iterating a squelched block *)

Section SquelchedIteration.

Variable rms : bytes -> Z -> result Z.


End SquelchedIteration.



(** ** Wave files

    The [wave] module as far as the source uses it, on a little-endian
    host: a file has its format and its frame data; a reader hands out the
    data front to back. *)

Record WaveFile : Type := mkWaveFile {
  wav_nchannels : Z;
  wav_sampwidth : Z;
  wav_framerate : Z;
  wav_data : bytes
}.

(** A [Wave_read] object: the file, the data not read yet, and whether
    [close()] has been called. *)
Record Wave_read : Type := mkWaveRead {
  fp_file : WaveFile;
  fp_rest : bytes;
  fp_closed : bool
}.

Definition wave_open (f : WaveFile) : Wave_read := mkWaveRead f (wav_data f) false.

Definition framesize (fp : Wave_read) : Z :=
  wav_nchannels (fp_file fp) * wav_sampwidth (fp_file fp).

Definition getnframes (fp : Wave_read) : Z :=
  len (wav_data (fp_file fp)) / framesize fp.

(** [readframes(nframes)]: nothing for [nframes = 0] or at the end of the
    data; otherwise the next [nframes] frames, or what is left of them (all
    of it for a negative [nframes]); reading data from a closed file
    raises [ValueError]. *)
Definition readframes (fp : Wave_read) (nframes : Z) : result bytes * Wave_read :=
  if nframes =? 0 then (Ok [], fp)
  else match fp_rest fp with
       | [] => (Ok [], fp)
       | _ =>
           if fp_closed fp then (Raise ValueError, fp)
           else
             let size := nframes * framesize fp in
             let k := if size <? 0 then length (fp_rest fp) else Z.to_nat size in
             (Ok (firstn k (fp_rest fp)),
              mkWaveRead (fp_file fp) (skipn k (fp_rest fp)) false)
       end.

Definition wave_close (fp : Wave_read) : Wave_read :=
  mkWaveRead (fp_file fp) (fp_rest fp) true.

(** [l[i] = x] on the list of reader objects. *)
Fixpoint set_nth {A : Type} (i : nat) (x : A) (l : list A) : list A :=
  match l, i with
  | [], _ => []
  | _ :: l', O => x :: l'
  | a :: l', S i' => a :: set_nth i' x l'
  end.

Module Wave.

(** What [start()] binds in one go: [_wave_fp] (a reference into the
    reader objects created so far), [_width], [_freq] and [_channels].
    Before the first [start()] all four are [None]. *)
Record Opened : Type := mkOpened {
  o_wave_fp : nat;
  o_width : Z;
  o_freq : Z;
  o_channels : Z
}.

(** The fields of a [_WaveAudioBlock]: [_nframes], and the reader, rate,
    width and channel count it was given. *)
Record _WaveAudioBlock : Type := mkWaveBlock {
  b_opened : option Opened;
  _nframes : Z
}.

(** A [WaveSource].  [_wave_path] is given by the file found at that path;
    [_last_block] is the block object itself, which its consumer iterates;
    [readers] are the reader objects that [_wave_fp] of the source and of
    its block refer to. *)
Record WaveSource : Type := mkWaveSource {
  running : bool;
  _last_block : option (AudioBlock _WaveAudioBlock);
  _block_returned : bool;
  _wave_path : WaveFile;
  _chunk_frames : option Z;
  _opened : option Opened;
  _out_queue : option ChunkQueue;
  _returned_block : option bool;
  readers : list Wave_read
}.

Definition init (wave_path : WaveFile) (chunk_frames : option Z) : WaveSource :=
  mkWaveSource false None false wave_path chunk_frames None None None [].

Definition start (s : WaveSource) : result unit * WaveSource :=
  let fp := wave_open (_wave_path s) in
  let f := _wave_path s in
  let s' :=
    mkWaveSource true (_last_block s) (_block_returned s) (_wave_path s)
                 (_chunk_frames s)
                 (Some (mkOpened (length (readers s)) (wav_sampwidth f)
                                 (wav_framerate f) (wav_nchannels f)))
                 (Some []) (Some false) (readers s ++ [fp]) in
  if wav_nchannels f <=? 2 then (Ok tt, s') else (Raise AssertionError, s').

(** [_out_queue.put(None)], [_wave_fp.close()], then [AudioSource.stop]:
    the last block is ended and [running] cleared. *)
Definition stop (s : WaveSource) : result unit * WaveSource :=
  match _out_queue s, _opened s with
  | Some q, Some o =>
      let closed :=
        match nth_error (readers s) (o_wave_fp o) with
        | Some fp => set_nth (o_wave_fp o) (wave_close fp) (readers s)
        | None => readers s
        end in
      (Ok tt,
       mkWaveSource false (option_map block_end (_last_block s)) (_block_returned s)
                    (_wave_path s) (_chunk_frames s) (_opened s)
                    (Some (add_chunk q None)) (_returned_block s) closed)
  | _, _ => (Raise AttributeError, s)
  end.

(** [self._chunk_frames or self._wave_fp.getnframes()], then the block. *)
Definition _get_block (s : WaveSource) : result (AudioBlock _WaveAudioBlock) :=
  frame_cnt <-
    match _chunk_frames s with
    | Some n => if n =? 0 then
                  match _opened s with
                  | Some o => match nth_error (readers s) (o_wave_fp o) with
                              | Some fp => Ok (getnframes fp)
                              | None => Raise AttributeError
                              end
                  | None => Raise AttributeError
                  end
                else Ok n
    | None =>
        match _opened s with
        | Some o => match nth_error (readers s) (o_wave_fp o) with
                    | Some fp => Ok (getnframes fp)
                    | None => Raise AttributeError
                    end
        | None => Raise AttributeError
        end
    end ;;
  Ok (mkBlock false (mkWaveBlock (_opened s) frame_cnt)).

Definition set_block_returned (s : WaveSource) : WaveSource :=
  mkWaveSource (running s) (_last_block s) true (_wave_path s) (_chunk_frames s)
               (_opened s) (_out_queue s) (_returned_block s) (readers s).

(** [SingleBlockAudioSource._next_block] *)
Definition _next_block (s : WaveSource)
  : result (AudioBlock _WaveAudioBlock) * WaveSource :=
  if _block_returned s then (Raise StopAsyncIteration, s)
  else (_get_block (set_block_returned s), set_block_returned s).

(** [AudioSource.__anext__] *)
Definition source_anext (s : WaveSource)
  : result (AudioBlock _WaveAudioBlock) * WaveSource :=
  match _next_block s with
  | (Raise e, s') => (Raise e, s')
  | (Ok blk, s') =>
      (Ok blk,
       mkWaveSource (running s') (Some blk) (_block_returned s') (_wave_path s')
                    (_chunk_frames s') (_opened s') (_out_queue s')
                    (_returned_block s') (readers s'))
  end.

Section WithDownmix.

(** [audioop.tomono(fragment, width, .5, .5)] is the library's. *)
Variable tomono : bytes -> Z -> result bytes.

(** [_next_chunk] of a wave block, on the reader objects and the fields of
    the block.  A block made before [start()] has no reader. *)
Definition _next_chunk (st : list Wave_read * _WaveAudioBlock)
  : result AudioChunk * (list Wave_read * _WaveAudioBlock) :=
  let (rs, b) := st in
  match b_opened b with
  | None => (Raise AttributeError, st)
  | Some o =>
      match nth_error rs (o_wave_fp o) with
      | None => (Raise AttributeError, st)
      | Some fp =>
          let (r, fp') := readframes fp (_nframes b) in
          let st' := (set_nth (o_wave_fp o) fp' rs, b) in
          match r with
          | Raise e => (Raise e, st')
          | Ok frames =>
              match (if o_channels o =? 2 then tomono frames (o_width o)
                     else Ok frames) with
              | Raise e => (Raise e, st')
              | Ok frames =>
                  if len frames =? 0 then (Raise StopAsyncIteration, st')
                  else (Ok (mkAudioChunk 0 frames (o_width o) (o_freq o)), st')
              end
          end
      end
  end.

#[export] Instance producer : ChunkProducer (list Wave_read * _WaveAudioBlock) :=
  _next_chunk.

(** [__anext__] of the block of a source, which is its [_last_block];
    nothing when the source has returned no block. *)
Definition block_next (w : race) (s : WaveSource)
  : option (result AudioChunk * WaveSource) :=
  match _last_block s with
  | None => None
  | Some b =>
      let (r, pb) := block_anext w (mkBlock (stopped b) (readers s, impl b)) in
      Some (r,
            mkWaveSource (running s) (Some (mkBlock (stopped pb) (snd (impl pb))))
                         (_block_returned s) (_wave_path s) (_chunk_frames s)
                         (_opened s) (_out_queue s) (_returned_block s)
                         (fst (impl pb)))
  end.

(** Iterating the block of a source until it raises; no exception is
    reported when there is no block or the fuel runs out. *)
Fixpoint play (fuel : nat) (s : WaveSource)
  : list AudioChunk * option exn * WaveSource :=
  match fuel with
  | O => ([], None, s)
  | S fuel' =>
      match block_next ChunkFirst s with
      | None => ([], None, s)
      | Some (Raise e, s') => ([], Some e, s')
      | Some (Ok c, s') =>
          let '(items, e, s'') := play fuel' s' in (c :: items, e, s'')
      end
  end.

(** What a user of a wave source can do with it and with its block. *)
Inductive op : Type :=
| op_start
| op_stop
| op_anext
| op_block_next (w : race).

Inductive obs : Type :=
| obs_done (r : result unit)
| obs_block (r : result (AudioBlock _WaveAudioBlock))
| obs_chunk (r : option (result AudioChunk)).

Definition step (o : op) (s : WaveSource) : obs * WaveSource :=
  match o with
  | op_start => let (r, s') := start s in (obs_done r, s')
  | op_stop => let (r, s') := stop s in (obs_done r, s')
  | op_anext => let (r, s') := source_anext s in (obs_block r, s')
  | op_block_next w =>
      match block_next w s with
      | None => (obs_chunk None, s)
      | Some (r, s') => (obs_chunk (Some r), s')
      end
  end.

Fixpoint run_ops (ops : list op) (s : WaveSource) : list obs * WaveSource :=
  match ops with
  | [] => ([], s)
  | o :: ops' =>
      let (ob, s') := step o s in
      let (obs', s'') := run_ops ops' s' in
      (ob :: obs', s'')
  end.

(** The number of blocks a source has handed out. *)
Fixpoint blocks_returned (l : list obs) : nat :=
  match l with
  | [] => O
  | obs_block (Ok _) :: l' => S (blocks_returned l')
  | _ :: l' => blocks_returned l'
  end.

(** [async with source.listen(): body]: [start()], the body, then
    [stop()] whether or not the body raised; when [start()] raises, neither
    the body nor [stop()] runs. *)
Definition listen {A : Type} (s : WaveSource)
           (body : WaveSource -> result A * WaveSource) : result A * WaveSource :=
  match start s with
  | (Raise e, s') => (Raise e, s')
  | (Ok _, s1) =>
      let (r, s2) := body s1 in
      match stop s2 with
      | (Raise e, s3) => (Raise e, s3)
      | (Ok _, s3) => (r, s3)
      end
  end.

(** A source on which [start()] has bound the queue and the reader. *)
Definition started (s : WaveSource) : Prop :=
  exists q o, _out_queue s = Some q /\ _opened s = Some o /\
              (o_wave_fp o < length (readers s))%nat.

(** The reader that [_wave_fp] of the source refers to. *)
Definition current_reader (s : WaveSource) : option Wave_read :=
  match _opened s with
  | Some o => nth_error (readers s) (o_wave_fp o)
  | None => None
  end.

End WithDownmix.

End Wave.

(** A downmix stand-in: the left channel. *)
Fixpoint left_channel (fuel : nat) (a : bytes) (w : nat) : bytes :=
  match fuel with
  | O => []
  | S fuel' =>
      match a with
      | [] => []
      | _ => firstn w a ++ left_channel fuel' (skipn (2 * w) a) w
      end
  end.

Definition tomono_left (fragment : bytes) (width : Z) : result bytes :=
  Ok (left_channel (length fragment) fragment (Z.to_nat width)).

(** A mono 16-bit file of 250 frames, and a three-channel file. *)
Definition mono_file : WaveFile :=
  mkWaveFile 1 2 16000 (repeat x01 200 ++ repeat x02 200 ++ repeat x03 100).

Definition surround_file : WaveFile := mkWaveFile 3 2 16000 (repeat x01 60).

(** ** The rate converter as a source *)

(** The fields of a [RateConvert] processor that [_next_block] uses. *)
Record RateConvertSource : Type := mkRateConvertSource {
  rc_source : ReplaySource;
  rc_n_channels : Z;
  rc_out_rate : Z
}.

(** [RateConvert._next_block]: the next block of the wrapped source, in a
    new [_RateConvertBlock]. *)
Definition rate_convert_next_block {RState : Type} (p : RateConvertSource)
  : result (AudioBlock (RateConvert._RateConvertBlock RState Upstream))
    * RateConvertSource :=
  match source_anext (rc_source p) with
  | (Raise e, src) =>
      (Raise e, mkRateConvertSource src (rc_n_channels p) (rc_out_rate p))
  | (Ok src_block, src) =>
      (Ok (mkBlock false
                   (RateConvert.init src_block (rc_n_channels p) (rc_out_rate p))),
       mkRateConvertSource src (rc_n_channels p) (rc_out_rate p))
  end.

(** * Properties *)

(** ** Chunk utilities *)

Lemma slice_to_from {A : Type} (s : list A) (i : Z) :
  slice_to s i ++ slice_from s i = s.
Proof. unfold slice_to, slice_from. apply firstn_skipn. Qed.

Lemma slice_bound_nonneg (n i : Z) :
  0 <= i <= n -> slice_bound n i = Z.to_nat i.
Proof.
  intros [H0 Hn]. unfold slice_bound.
  destruct (i <? 0) eqn:E.
  - apply Z.ltb_lt in E. lia.
  - f_equal. lia.
Qed.

Lemma chunk_sample_cnt_pos (c : AudioChunk) :
  0 < width c ->
  chunk_sample_cnt c = Ok (len (audio c) / width c).
Proof.
  intros Hw. unfold chunk_sample_cnt.
  destruct (width c =? 0) eqn:E.
  - apply Z.eqb_eq in E. lia.
  - f_equal. apply Z.quot_div_nonneg; unfold len; lia.
Qed.

(** C4. Splitting a chunk [C] of positive width at a sample offset
    [0 <= k <= sampleCount(C)] and merging the two halves gives back [C]
    (in particular the same audio bytes); both halves keep [C]'s
    [start_time], [width] and [freq]; the cut is at byte offset
    [k * width]: the first half is the first [k * width] bytes, the second
    half is the rest. *)
Theorem split_then_merge (C : AudioChunk) (k n : Z) :
  0 < width C ->
  chunk_sample_cnt C = Ok n ->
  0 <= k <= n ->
  let a := fst (split_chunk C k) in
  let b := snd (split_chunk C k) in
  merge_chunks [a; b] = Ok C /\
  (exists m, merge_chunks [a; b] = Ok m /\ audio m = audio C) /\
  (start_time a = start_time C /\ width a = width C /\ freq a = freq C) /\
  (start_time b = start_time C /\ width b = width C /\ freq b = freq C) /\
  audio a = firstn (Z.to_nat (k * width C)) (audio C) /\
  audio b = skipn (Z.to_nat (k * width C)) (audio C) /\
  len (audio a) = k * width C.
Proof.
  intros Hw Hn Hk a b.
  assert (Hm : merge_chunks [a; b] = Ok C).
  { subst a b. unfold merge_chunks, split_chunk. cbn.
    rewrite app_nil_r, slice_to_from. destruct C; reflexivity. }
  rewrite chunk_sample_cnt_pos in Hn by assumption.
  injection Hn as Hn.
  assert (Hoff : 0 <= k * width C <= len (audio C)).
  { split; [nia|].
    pose proof (Z.mul_div_le (len (audio C)) (width C) Hw). nia. }
  assert (Ha : audio a = firstn (Z.to_nat (k * width C)) (audio C)).
  { subst a. cbn. unfold slice_to. now rewrite slice_bound_nonneg. }
  assert (Hb : audio b = skipn (Z.to_nat (k * width C)) (audio C)).
  { subst b. cbn. unfold slice_from. now rewrite slice_bound_nonneg. }
  repeat split; auto.
  - exists C. split; [exact Hm | reflexivity].
  - rewrite Ha. unfold len in *. rewrite firstn_length_le by lia. lia.
Qed.

Lemma split_then_merge_witness :
  merge_chunks [fst (split_chunk (steady 0 x01 100) 60);
                snd (split_chunk (steady 0 x01 100) 60)]
  = Ok (steady 0 x01 100).
Proof.
  apply (split_then_merge (steady 0 x01 100) 60 100).
  - reflexivity.
  - reflexivity.
  - lia.
Defined.

(** ** Blocks *)

Lemma block_anext_ended {S : Type} `{ChunkProducer S} (w : race) (b : AudioBlock S) :
  ended b = true -> block_anext w b = (Raise StopAsyncIteration, b).
Proof. unfold ended, block_anext. intros ->. reflexivity. Qed.

Lemma block_step_ended {S : Type} `{ChunkProducer S} (op : block_op) (b : AudioBlock S) :
  ended b = true ->
  snd (block_step op b) = b /\
  match fst (block_step op b) with
  | obs_none => True
  | obs_next r => r = Raise StopAsyncIteration
  | obs_ended e => e = true
  end.
Proof.
  intros Hb. destruct op as [|w|]; cbn.
  - split; [|exact I]. destruct b as [st i]. cbn in Hb. now subst.
  - rewrite (block_anext_ended w b Hb). cbn. now split.
  - now split.
Qed.

(** C5. On any block, whatever its producer, once [ended] is true it stays
    true through every sequence of operations ([end()], [__anext__] with
    either outcome of the race, reading [ended]); every [__anext__] in the
    sequence raises [StopAsyncIteration] and leaves the producer untouched,
    so that no chunk is yielded. *)
Theorem ended_never_reverts {S : Type} `{ChunkProducer S}
        (b : AudioBlock S) (ops : list block_op) :
  ended b = true ->
  ended (snd (block_run ops b)) = true /\
  impl (snd (block_run ops b)) = impl b /\
  Forall (fun o => match o with
                   | obs_none => True
                   | obs_next r => r = Raise StopAsyncIteration
                   | obs_ended e => e = true
                   end)
         (fst (block_run ops b)).
Proof.
  intros Hb. induction ops as [|op ops IH]; cbn.
  - auto.
  - destruct (block_step_ended op b Hb) as [Hs Ho].
    destruct (block_step op b) as [o b1]. cbn in Hs, Ho. subst b1.
    destruct (block_run ops b) as [os b2]. cbn in *.
    destruct IH as (He & Hi & Hf). auto.
Qed.

Lemma ended_never_reverts_witness :
  ended (snd (block_run [op_anext ChunkFirst; op_ended; op_end; op_anext StoppedFirst]
                        ended_block)) = true /\
  fst (block_run [op_anext ChunkFirst; op_ended; op_end; op_anext StoppedFirst]
                 ended_block)
  = [obs_next (Raise StopAsyncIteration); obs_ended true; obs_none;
     obs_next (Raise StopAsyncIteration)].
Proof.
  split.
  - apply (ended_never_reverts ended_block
             [op_anext ChunkFirst; op_ended; op_end; op_anext StoppedFirst]).
    reflexivity.
  - reflexivity.
Defined.

(** ** Starting the squelch processor *)

(** C9, as the code has it.  Starting a squelch processor whose
    [squelch_level] is unset fails with [AssertionError], the exception of
    a failed [assert]; nothing has been started when it is raised. *)
Theorem start_without_level (s : SquelchedSource) :
  squelch_level s = None ->
  squelched_start s = (Raise AssertionError, s).
Proof. unfold squelched_start. intros ->. reflexivity. Qed.

Lemma start_without_level_witness :
  squelched_start unset_source = (Raise AssertionError, unset_source).
Proof. apply (start_without_level unset_source). reflexivity. Defined.

(** C9, as the specification words it, does not hold: the failure is not
    of a kind other than the generic assertion failure. *)
Lemma start_without_level_not_distinct :
  ~ (exists e, fst (squelched_start unset_source) = Raise e /\ e <> AssertionError).
Proof.
  intros (e & He & Hne). cbn in He. injection He as <-. now apply Hne.
Qed.

(** ** The remembering iterator *)

Lemma skipn_succ_tl {A : Type} (n : nat) (l : list A) :
  skipn (S n) l = tl (skipn n l).
Proof.
  revert l. induction n as [|n IH]; intros [|a l]; try reflexivity.
  change (skipn (S n) l = tl (skipn n l)). apply IH.
Qed.

Lemma lastn_length {A : Type} (n : nat) (l : list A) :
  length (lastn n l) = Nat.min (length l) n.
Proof. unfold lastn. rewrite length_skipn. lia. Qed.

(** Appending to a deque that holds the last [maxlen] items of a history
    gives the last [maxlen] items of the longer history. *)
Lemma deque_append_lastn {A : Type} (maxlen : Z) (xs : list A) (x : A) :
  0 <= maxlen ->
  deque_append maxlen (lastn (Z.to_nat maxlen) xs) x
  = lastn (Z.to_nat maxlen) (xs ++ [x]).
Proof.
  intros Hn. unfold deque_append, len.
  rewrite length_app, lastn_length. cbn [length].
  unfold lastn. rewrite length_app. cbn [length].
  destruct (Nat.le_gt_cases (Z.to_nat maxlen) (length xs)) as [Hfull | Hroom].
  - replace (maxlen <? _) with true by (symmetry; apply Z.ltb_lt; lia).
    replace (length xs + 1 - Z.to_nat maxlen)%nat
      with (S (length xs - Z.to_nat maxlen)) by lia.
    rewrite skipn_succ_tl, skipn_app.
    replace (length xs - Z.to_nat maxlen - length xs)%nat with O by lia.
    reflexivity.
  - replace (maxlen <? _) with false by (symmetry; apply Z.ltb_ge; lia).
    replace (length xs - Z.to_nat maxlen)%nat with O by lia.
    replace (length xs + 1 - Z.to_nat maxlen)%nat with O by lia.
    reflexivity.
Qed.

Lemma pulls_memory {S A : Type} `{AsyncIterator S A}
      (r0 r : RememberingIterator S A) (xs : list A) :
  pulls r0 xs r ->
  forall past,
    0 <= memory_size r0 ->
    memory r0 = lastn (Z.to_nat (memory_size r0)) past ->
    memory_size r = memory_size r0 /\
    memory r = lastn (Z.to_nat (memory_size r0)) (past ++ xs).
Proof.
  induction 1 as [r | r0 x r1 xs r Hstep Hpulls IH]; intros past Hn Hmem.
  - now rewrite app_nil_r.
  - unfold remembering_anext in Hstep.
    destruct (anext (ri_iterator r0)) as [[ret | e] it]; [|discriminate].
    injection Hstep as -> <-.
    destruct (IH (past ++ [x])) as [Hsize Hlast]; cbn; try assumption.
    + unfold memory in Hmem. rewrite Hmem. now apply deque_append_lastn.
    + cbn in Hsize, Hlast. now rewrite <- app_assoc in Hlast.
Qed.

(** C7. A remembering iterator of capacity [N], after [M] successful pulls
    that returned [xs], holds the last [min M N] items of [xs] in the order
    they were returned.  A pull on a full buffer drops the oldest item and
    adds the new one at the end; a pull that raises leaves the buffer as it
    was.  [memory] is a projection of the state: reading changes nothing. *)
Theorem remembering_window {S A : Type} `{AsyncIterator S A}
        (it : S) (N : Z) (r0 r : RememberingIterator S A) (xs : list A) :
  RememberingIterator_init it N = Ok r0 ->
  pulls r0 xs r ->
  memory r = lastn (Z.to_nat N) xs /\
  len (memory r) = Z.min (len xs) N /\
  (forall x r', remembering_anext r = (Ok x, r') ->
                len (memory r) = N ->
                memory r' = tl (memory r ++ [x])) /\
  (forall e r', remembering_anext r = (Raise e, r') -> memory r' = memory r).
Proof.
  intros Hinit Hpulls. unfold RememberingIterator_init in Hinit.
  destruct (N <? 0) eqn:HN; [discriminate|]. apply Z.ltb_ge in HN.
  injection Hinit as <-.
  destruct (pulls_memory _ _ _ Hpulls []) as [Hsize Hmem]; cbn; try assumption.
  { unfold lastn. reflexivity. }
  cbn [memory_size app] in Hsize, Hmem. repeat split.
  - exact Hmem.
  - rewrite Hmem. unfold len. rewrite lastn_length. lia.
  - intros x r' Hstep Hfull. unfold remembering_anext in Hstep.
    destruct (anext (ri_iterator r)) as [[ret | e] it']; [|discriminate].
    injection Hstep as -> <-. cbn. unfold deque_append.
    rewrite Hsize. unfold memory in Hfull. unfold len in *.
    rewrite length_app. cbn [length].
    replace (N <? _) with true by (symmetry; apply Z.ltb_lt; lia).
    reflexivity.
  - intros e r' Hstep. unfold remembering_anext in Hstep.
    destruct (anext (ri_iterator r)) as [[ret | e'] it']; [discriminate|].
    injection Hstep as _ <-. reflexivity.
Qed.

Lemma remembering_window_witness :
  memory window_after_six = map tone [x1e; x28; x32; x3c] /\
  memory window_after_six
  = lastn 4 (map tone [x0a; x14; x1e; x28; x32; x3c]).
Proof.
  split; [reflexivity|].
  apply (remembering_window (open_block ten_tones) 4 window_start window_after_six
                            (map tone [x0a; x14; x1e; x28; x32; x3c])).
  - reflexivity.
  - cbn [map]. repeat (eapply pulls_cons; [reflexivity|]). apply pulls_nil.
Defined.

(** ** Sorting and indexing *)

Lemma insert_sorted_perm (x : Z) (l : list Z) :
  Permutation (insert_sorted x l) (x :: l).
Proof.
  induction l as [|y l IH]; cbn.
  - reflexivity.
  - destruct (x <=? y).
    + reflexivity.
    + rewrite IH. apply perm_swap.
Qed.

Lemma sorted_perm (l : list Z) : Permutation (sorted l) l.
Proof.
  induction l as [|x l IH]; cbn.
  - reflexivity.
  - rewrite insert_sorted_perm. now constructor.
Qed.

Lemma sorted_length (l : list Z) : length (sorted l) = length l.
Proof. apply Permutation_length, sorted_perm. Qed.

Lemma insert_sorted_ascending (x : Z) (l : list Z) :
  StronglySorted Z.le l -> StronglySorted Z.le (insert_sorted x l).
Proof.
  induction 1 as [|y l Hl IH Hy]; cbn.
  - repeat constructor.
  - destruct (x <=? y) eqn:E.
    + apply Z.leb_le in E. constructor.
      * now constructor.
      * constructor; [assumption|].
        eapply Forall_impl; [|exact Hy]. cbn. intros z Hz. lia.
    + apply Z.leb_gt in E. constructor; [assumption|].
      eapply Permutation_Forall.
      * symmetry. apply insert_sorted_perm.
      * constructor; [lia | assumption].
Qed.

Lemma sorted_ascending (l : list Z) : StronglySorted Z.le (sorted l).
Proof.
  induction l as [|x l IH]; cbn.
  - constructor.
  - now apply insert_sorted_ascending.
Qed.

(** An ascending list is determined by its elements. *)
Lemma ascending_unique (l l' : list Z) :
  StronglySorted Z.le l -> StronglySorted Z.le l' -> Permutation l l' -> l = l'.
Proof.
  intros Hl. revert l'. induction Hl as [|x l Hl IH Hx]; intros l' Hl' Hp.
  - now apply Permutation_nil in Hp.
  - destruct Hl' as [|y l' Hl' Hy].
    + symmetry in Hp. now apply Permutation_nil in Hp.
    + assert (Hxy : x = y).
      { assert (In x (y :: l')) as [-> | Hin]
          by (eapply Permutation_in; [exact Hp | now left]); [reflexivity|].
        assert (In y (x :: l)) as [-> | Hin']
          by (eapply Permutation_in; [symmetry; exact Hp | now left]); [reflexivity|].
        rewrite Forall_forall in Hx, Hy.
        specialize (Hx _ Hin'). specialize (Hy _ Hin). lia. }
      subst y. f_equal. apply IH; [assumption|].
      eapply Permutation_cons_inv. exact Hp.
Qed.





Lemma Qltb_lt (a b : Q) : Qltb a b = true <-> (a < b)%Q.
Proof.
  unfold Qltb. rewrite negb_true_iff, <- not_true_iff_false, Qle_bool_iff.
  split; [apply Qnot_le_lt | apply Qlt_not_le].
Qed.

Lemma Qltb_ge (a b : Q) : Qltb a b = false <-> (b <= a)%Q.
Proof.
  unfold Qltb. rewrite negb_false_iff. apply Qle_bool_iff.
Qed.

(** ** The squelch decision *)

Section SquelchDecision.

Variable rms : bytes -> Z -> result Z.





End SquelchDecision.



(** ** Calibration *)

Lemma Qtrunc_floor (q : Q) : (0 <= q)%Q -> Qtrunc q = Qfloor q.
Proof.
  destruct q as [n d]. unfold Qle, Qtrunc, Qfloor. cbn.
  intros Hn. apply Z.quot_div_nonneg; lia.
Qed.

Lemma Qmult_len_nonneg (q : Q) {A : Type} (l : list A) :
  (0 <= q)%Q -> (0 <= q * inject_Z (len l))%Q.
Proof.
  intros Hq. apply Qmult_le_0_compat; [assumption|].
  unfold Qle, len. cbn. lia.
Qed.





(** ** Rate conversion *)

Section RateConvertProperties.

Variable RState : Type.
Variable ratecv :
  bytes -> Z -> Z -> Z -> Z -> option RState -> result (bytes * RState).

(** One chunk through the block: the state handed to [ratecv] is the one
    the block holds, and the one [ratecv] returns is the one it keeps. *)
Lemma rate_convert_step (b : RateConvert._RateConvertBlock RState Upstream)
      (chunk : AudioChunk) (src : Upstream) (new_aud : bytes) (st : RState) :
  anext (RateConvert._src_block b) = (Ok chunk, src) ->
  ratecv (audio chunk) 2 (RateConvert._n_channels b) (freq chunk)
         (RateConvert._out_rate b) (RateConvert._state b) = Ok (new_aud, st) ->
  RateConvert._next_chunk RState ratecv b
  = (Ok (mkAudioChunk (start_time chunk) new_aud 2 (RateConvert._out_rate b)),
     RateConvert.mkRateConvertBlock src (RateConvert._n_channels b)
                                    (RateConvert._out_rate b) (Some st)).
Proof.
  intros Hsrc Hcv. unfold RateConvert._next_chunk. now rewrite Hsrc, Hcv.
Qed.

Lemma threaded_outputs (n_channels out_rate : Z) (chunks : list AudioChunk) :
  forall st,
    Forall2 (fun c o => start_time o = start_time c /\ width o = 2 /\
                        freq o = out_rate)
            (firstn (length (fst (fst (RateConvert.threaded
                                         RState ratecv n_channels out_rate st chunks))))
                    chunks)
            (fst (fst (RateConvert.threaded RState ratecv n_channels out_rate st chunks))).
Proof.
  induction chunks as [|c chunks IH]; intros st; cbn.
  - constructor.
  - destruct (ratecv (audio c) 2 n_channels (freq c) out_rate st)
      as [[new_aud st']|e]; cbn; [|constructor].
    specialize (IH (Some st')).
    destruct (RateConvert.threaded RState ratecv n_channels out_rate (Some st') chunks)
      as [[outs e] last]. cbn in *.
    constructor; [repeat split | exact IH].
Qed.

Lemma rate_convert_drain (n_channels out_rate : Z) (chunks : list AudioChunk) :
  forall (st : option RState) (fuel : nat),
    (length chunks < fuel)%nat ->
    let run := RateConvert.run RState ratecv fuel
                     (mkBlock false
                              (RateConvert.mkRateConvertBlock
                                 (open_block chunks) n_channels out_rate st)) in
    let spec := RateConvert.threaded RState ratecv n_channels out_rate st chunks in
    fst (fst run) = fst (fst spec) /\
    snd (fst run) = Some (snd (fst spec)) /\
    RateConvert._state (impl (snd run)) = snd spec.
Proof.
  induction chunks as [|c chunks IH]; intros st fuel Hfuel;
    (destruct fuel as [|fuel]; [cbn in Hfuel; lia|]).
  - cbn. auto.
  - unfold RateConvert.run in *. cbn [drain RateConvert.threaded].
    unfold anext at 1, block_iterator, block_anext. cbn [stopped impl].
    unfold next_chunk at 1, RateConvert.producer, RateConvert._next_chunk.
    cbn [RateConvert._src_block RateConvert._n_channels RateConvert._out_rate
         RateConvert._state].
    unfold anext at 1, block_iterator, block_anext, open_block. cbn.
    destruct (ratecv (audio c) 2 n_channels (freq c) out_rate st)
      as [[new_aud st']|e].
    + specialize (IH (Some st') fuel ltac:(cbn in Hfuel; lia)).
      unfold open_block in IH. cbn zeta in IH.
      destruct (drain fuel _) as [[items ex] fin].
      destruct (RateConvert.threaded RState ratecv n_channels out_rate (Some st') chunks)
        as [[outs e] last].
      cbn in *. destruct IH as (-> & -> & ->). auto.
    + destruct e; cbn; auto.
Qed.

(** C8. Iterating a rate-converted block over the chunks of its source
    block yields exactly the conversion in which the filter state starts
    unset and the state returned for chunk [i] is the state given for
    chunk [i+1]; the block keeps the last state.  Every output chunk has
    the [start_time] of its input chunk, width 2 and the output rate. *)
Theorem rate_convert_threads_state (n_channels out_rate : Z)
        (chunks : list AudioChunk) :
  let run := RateConvert.run RState ratecv (S (length chunks))
                   (mkBlock false
                            (RateConvert.init (open_block chunks) n_channels out_rate)) in
  let spec := RateConvert.threaded RState ratecv n_channels out_rate None chunks in
  fst (fst run) = fst (fst spec) /\
  snd (fst run) = Some (snd (fst spec)) /\
  RateConvert._state (impl (snd run)) = snd spec /\
  Forall2 (fun c o => start_time o = start_time c /\ width o = 2 /\
                      freq o = out_rate)
          (firstn (length (fst (fst run))) chunks) (fst (fst run)).
Proof.
  intros run spec. subst run spec. unfold RateConvert.init.
  destruct (rate_convert_drain n_channels out_rate chunks None (S (length chunks)))
    as (Houts & Hexn & Hstate); [lia|].
  repeat split; try assumption.
  rewrite Houts. apply threaded_outputs.
Qed.

End RateConvertProperties.

(** The three chunks of [three_hundreds] through a block whose resampler
    counts bytes: the count runs on from chunk to chunk. *)
Example rate_convert_counts :
  RateConvert._state
    (impl (snd (RateConvert.run Z ratecv_count 4
                  (mkBlock false (RateConvert.init (open_block three_hundreds) 1 8000)))))
  = Some 600.
Proof. reflexivity. Qed.

(** ** The pre-roll of a squelched block *)

Lemma deque_append_bounded {A : Type} (maxlen : Z) (buff : list A) (x : A) :
  len buff <= maxlen -> len (deque_append maxlen buff x) <= maxlen.
Proof.
  intros Hb. unfold deque_append.
  destruct (maxlen <? len (buff ++ [x])) eqn:E.
  - unfold len in *. destruct buff; cbn in *; [lia|].
    rewrite length_app. cbn. rewrite length_app in E. cbn in E. lia.
  - now apply Z.ltb_ge in E.
Qed.

Lemma remembering_anext_bounded {S A : Type} `{AsyncIterator S A}
      (r r' : RememberingIterator S A) (res : result A) :
  remembering_anext r = (res, r') ->
  memory_size r' = memory_size r /\
  (len (memory r) <= memory_size r -> len (memory r') <= memory_size r').
Proof.
  unfold remembering_anext.
  destruct (anext (ri_iterator r)) as [[ret | e] it]; intros Heq;
    injection Heq as _ <-; cbn; split; auto.
  apply deque_append_bounded.
Qed.

Section Preroll.

Variable rms : bytes -> Z -> result Z.

Lemma scan_triggers (fuel : nat) (level : option Q) :
  forall (m m' : MemIter) (u : unit),
    scan rms fuel level m = Some (Ok u, m') ->
    check_squelch rms level false (memory m') = Ok true /\
    memory_size m' = memory_size m /\
    (len (memory m) <= memory_size m -> len (memory m') <= memory_size m').
Proof.
  induction fuel as [|fuel IH]; intros m m' u Hscan; cbn in Hscan.
  - discriminate.
  - destruct (anext m) as [[x | e] m1] eqn:Hnext; [|discriminate].
    destruct (remembering_anext_bounded m m1 (Ok x) Hnext) as [Hsize Hlen].
    destruct (check_squelch rms level false (memory m1)) as [[|]|e] eqn:Hcheck.
    + injection Hscan as Hu Hm. subst m'. auto.
    + destruct (IH m1 m' u Hscan) as (Ht & Hs & Hl).
      split; [assumption|]. split; [congruence|]. auto.
    + discriminate.
Qed.

Lemma refresh_bounded (s s' : SquelchedSource) (m : MemIter) :
  window_bounded s ->
  refresh s = (Ok m, s') ->
  squelch_level s' = squelch_level s /\
  _prefix_samples s' = _prefix_samples s /\
  memory_size m = _prefix_samples s /\
  len (memory m) <= memory_size m.
Proof.
  unfold window_bounded, refresh, src_block_ended. intros Hb Href.
  destruct (_mem_iter s) as [m0|] eqn:Hm.
  - destruct (ended (_iterator (ri_iterator m0))).
    + destruct (source_anext (_source s)) as [[blk | e] src]; [|discriminate].
      unfold RememberingIterator_init in Href.
      destruct (_prefix_samples s <? 0) eqn:Hp; [discriminate|].
      injection Href as <- <-. cbn. repeat split. now apply Z.ltb_ge in Hp.
    + injection Href as <- <-. tauto.
  - destruct (option_map ended (_src_block s)) as [[|]|].
    2:{ discriminate. }
    all: destruct (source_anext (_source s)) as [[blk | e] src]; [|discriminate];
      unfold RememberingIterator_init in Href;
      destruct (_prefix_samples s <? 0) eqn:Hp; [discriminate|];
      injection Href as <- <-; cbn; repeat split; now apply Z.ltb_ge in Hp.
Qed.

(** C6, as the code has it.  When [_next_block] returns a block, the
    trigger condition has just held on the chunks in the pre-roll window
    (at least one, at most [prefix_samples]); the first [__anext__] of
    the block returns the merge of those chunks, and it takes nothing
    from the stream: the shared remembering iterator is left as it
    was. *)
Theorem preroll_first (fuel : nat) (s s' : SquelchedSource)
        (blk : AudioBlock SquelchedBlock) :
  window_bounded s ->
  _next_block rms fuel s = Some (Ok blk, s') ->
  exists (m : MemIter) (merged : AudioChunk),
    _mem_iter s' = Some m /\
    check_squelch rms (squelch_level s') false (memory m) = Ok true /\
    memory m <> [] /\
    len (memory m) <= _prefix_samples s' /\
    merge_chunks (memory m) = Ok merged /\
    squelched_block_anext rms ChunkFirst m blk
    = (Ok merged, m, mkBlock false (mkSquelchedBlock (squelch_level s') true)).
Proof.
  intros Hb Hnext. unfold _next_block in Hnext.
  destruct (refresh s) as [[m0 | e] s0] eqn:Href; [|discriminate].
  destruct (refresh_bounded s s0 m0 Hb Href) as (Hlevel & Hprefix & Hsize & Hlen).
  destruct (scan rms fuel (squelch_level s0) m0) as [[[u | e] m]|] eqn:Hscan;
    try discriminate.
  injection Hnext as <- <-.
  destruct (scan_triggers fuel _ m0 m u Hscan) as (Htrig & Hsize' & Hlen').
  assert (Hne : memory m <> []).
  { intros Hnil. rewrite Hnil in Htrig. discriminate. }
  destruct (merge_chunks (memory m)) as [merged | e] eqn:Hmerge.
  2:{ destruct (memory m); [contradiction | discriminate]. }
  exists m, merged. cbn [_mem_iter set_mem_iter squelch_level _prefix_samples].
  repeat split; try assumption.
  - rewrite Hprefix, <- Hsize, <- Hsize'. auto.
  - unfold squelched_block_anext, block_anext. cbn [stopped impl].
    unfold next_chunk, squelched_producer, squelched_next_chunk.
    cbn [_sent_mem negb sb_squelch_level]. rewrite Hmerge. reflexivity.
Qed.

End Preroll.

Lemma preroll_first_witness :
  exists (blk : AudioBlock SquelchedBlock) (s' : SquelchedSource) (m : MemIter)
         (merged : AudioChunk),
    _next_block rms_le 10 patient_source = Some (Ok blk, s') /\
    memory m = map tone [x0a; x14; x1e; x28] /\
    audio merged = [x0a; x00; x14; x00; x1e; x00; x28; x00] /\
    squelched_block_anext rms_le ChunkFirst m blk
    = (Ok merged, m, mkBlock false (mkSquelchedBlock (Some (25 # 1)) true)).
Proof.
  destruct (_next_block rms_le 10 patient_source) as [[[blk | e] s']|] eqn:Hrun;
    try (vm_compute in Hrun; discriminate).
  destruct (preroll_first rms_le 10 patient_source s' blk I Hrun)
    as (m & merged & Hm & _ & _ & _ & Hmerge & Hfirst).
  exists blk, s', m, merged.
  vm_compute in Hrun. injection Hrun as <- <-.
  cbn in Hm. injection Hm as <-.
  cbn in Hmerge. injection Hmerge as <-.
  split; [reflexivity|]. split; [reflexivity|]. split; [reflexivity|].
  exact Hfirst.
Defined.

(** C6, as the specification words it, does not hold: the window need not
    hold [prefix_samples] chunks when the trigger fires. *)
Lemma preroll_not_full :
  ~ (forall blk s',
        _next_block rms_le 1 eager_source = Some (Ok blk, s') ->
        exists m, _mem_iter s' = Some m /\ len (memory m) = _prefix_samples s').
Proof.
  intros Hfull.
  destruct (_next_block rms_le 1 eager_source) as [[[blk | e] s']|] eqn:Hrun;
    try (vm_compute in Hrun; discriminate).
  destruct (Hfull blk s' eq_refl) as (m & Hm & Hlen).
  vm_compute in Hrun. injection Hrun as <- <-.
  cbn in Hm. injection Hm as <-. vm_compute in Hlen. discriminate.
Qed.

(** ** The resegmenting iterator *)

Lemma firstn_plus {A : Type} (a b : nat) (l : list A) :
  firstn (a + b) l = firstn a l ++ firstn b (skipn a l).
Proof.
  revert l. induction a as [|a IH]; intros l; cbn.
  - reflexivity.
  - destruct l as [|x l]; cbn.
    + now rewrite firstn_nil.
    + now rewrite IH.
Qed.

Lemma aligned_sample_cnt (w : Z) (c : AudioChunk) :
  0 < w -> aligned w c ->
  exists k, 0 <= k /\ len (audio c) = k * w /\ chunk_sample_cnt c = Ok k.
Proof.
  intros Hw [Hc [k Hk]]. exists k. repeat split.
  - unfold len in Hk. nia.
  - exact Hk.
  - rewrite chunk_sample_cnt_pos by lia. rewrite Hc, Hk.
    now rewrite Z.div_mul by lia.
Qed.

Lemma merge_aligned (w : Z) (queue : list AudioChunk) (chunk : AudioChunk) :
  Forall (aligned w) queue -> aligned w chunk ->
  exists merged,
    merge_chunks (queue ++ [chunk]) = Ok merged /\
    width merged = w /\
    audio merged = concat (map audio queue) ++ audio chunk.
Proof.
  intros Hq Hc.
  assert (Ha : concat (map audio (queue ++ [chunk]))
               = concat (map audio queue) ++ audio chunk).
  { rewrite map_app, concat_app. cbn. now rewrite app_nil_r. }
  destruct queue as [|c0 queue]; cbn [app merge_chunks].
  - eexists. split; [reflexivity|]. cbn. split; [apply Hc|].
    now rewrite app_nil_r.
  - eexists. split; [reflexivity|]. cbn [width audio]. split.
    + inversion Hq as [|? ? [Hw _] _]. exact Hw.
    + exact Ha.
Qed.

Lemma even_loop_unfold (chunk_size : Z) (chunk : AudioChunk) (up_stopped : bool)
      (up_chunks queue : list AudioChunk) (ret : Z) :
  even_loop chunk_size chunk up_stopped up_chunks queue ret
  = let here := mkEven (mkBlock up_stopped up_chunks) chunk_size in
    match chunk_sample_cnt chunk with
    | Raise e => (Raise e, here None)
    | Ok cur_chunk_size =>
        if chunk_size <? ret + cur_chunk_size then
          match merge_chunks (queue ++ [chunk]) with
          | Raise e => (Raise e, here None)
          | Ok merged_chunk =>
              let (ret_chunk, leftover_chunk) := split_chunk merged_chunk chunk_size in
              (Ok ret_chunk, here (Some leftover_chunk))
          end
        else if ret + cur_chunk_size <? chunk_size then
          if up_stopped then (Raise StopAsyncIteration, here None)
          else match up_chunks with
               | [] => (Raise StopAsyncIteration,
                        mkEven (mkBlock true []) chunk_size None)
               | c :: up_chunks' =>
                   even_loop chunk_size c false up_chunks' (queue ++ [chunk])
                             (ret + cur_chunk_size)
               end
        else (merge_chunks (queue ++ [chunk]), here None)
    end.
Proof. destruct up_chunks; reflexivity. Qed.

(** The turn of the loop that goes back for another chunk is a pull on the
    upstream block. *)
Lemma even_loop_pull (chunk_size : Z) (chunk : AudioChunk) (up : Upstream)
      (queue : list AudioChunk) (ret k : Z) :
  chunk_sample_cnt chunk = Ok k ->
  ret + k < chunk_size ->
  even_loop chunk_size chunk (stopped up) (impl up) queue ret
  = match block_anext ChunkFirst up with
    | (Raise e, up') => (Raise e, mkEven up' chunk_size None)
    | (Ok c, up') =>
        even_loop chunk_size c (stopped up') (impl up') (queue ++ [chunk]) (ret + k)
    end.
Proof.
  intros Hk Hlt. rewrite even_loop_unfold. cbv zeta. rewrite Hk.
  replace (chunk_size <? ret + k) with false by (symmetry; apply Z.ltb_ge; lia).
  replace (ret + k <? chunk_size) with true by (symmetry; now apply Z.ltb_lt).
  destruct up as [[|] [|c rest]]; reflexivity.
Qed.

Lemma post_split (w chunk_size m : Z) (merged : AudioChunk)
      (up_stopped : bool) (up_chunks : list AudioChunk) :
  0 < w -> 0 < chunk_size ->
  width merged = w ->
  len (audio merged) = m * w ->
  chunk_size < m ->
  Forall (aligned w) up_chunks ->
  anext_post w chunk_size (audio merged ++ upstream_bytes up_stopped up_chunks)
             (let (ret_chunk, leftover_chunk) := split_chunk merged chunk_size in
              (Ok ret_chunk,
               mkEven (mkBlock up_stopped up_chunks) chunk_size (Some leftover_chunk))).
Proof.
  intros Hw Hcs Hmw Hlen Hover Hup.
  unfold split_chunk, slice_to, slice_from. rewrite Hmw.
  rewrite slice_bound_nonneg by nia.
  unfold anext_post. cbn [fst snd _chunk_size _cur_chunk _iterator].
  set (n := Z.to_nat (chunk_size * w)).
  assert (Hfit : (n <= length (audio merged))%nat) by (unfold len in Hlen; nia).
  split; [|split; [reflexivity|split]].
  - split; [exact Hup|]. cbn. split; [reflexivity|].
    exists (m - chunk_size). unfold len in *. cbn [audio]. rewrite length_skipn. nia.
  - intros _. eexists. split; [reflexivity|]. cbn [width audio].
    split; [reflexivity|]. split.
    + rewrite firstn_app. replace (n - length (audio merged))%nat with O by lia.
      now rewrite firstn_O, app_nil_r.
    + unfold pending. cbn [_cur_chunk _iterator stopped impl audio].
      rewrite skipn_app. replace (n - length (audio merged))%nat with O by lia.
      reflexivity.
  - intros Hshort. rewrite length_app in Hshort. lia.
Qed.

Lemma post_exact (w chunk_size : Z) (merged : AudioChunk)
      (up_stopped : bool) (up_chunks : list AudioChunk) :
  0 < w -> 0 < chunk_size ->
  width merged = w ->
  len (audio merged) = chunk_size * w ->
  Forall (aligned w) up_chunks ->
  anext_post w chunk_size (audio merged ++ upstream_bytes up_stopped up_chunks)
             (Ok merged, mkEven (mkBlock up_stopped up_chunks) chunk_size None).
Proof.
  intros Hw Hcs Hmw Hlen Hup. unfold anext_post.
  cbn [fst snd _chunk_size _cur_chunk _iterator].
  set (n := Z.to_nat (chunk_size * w)).
  assert (Hexact : length (audio merged) = n) by (unfold len in Hlen; nia).
  split; [|split; [reflexivity|split]].
  - split; [exact Hup | exact I].
  - intros _. exists merged. split; [reflexivity|]. split; [assumption|].
    rewrite <- Hexact. split.
    + rewrite firstn_app, Nat.sub_diag, firstn_all, firstn_O. now rewrite app_nil_r.
    + unfold pending. cbn [_cur_chunk _iterator stopped impl app].
      rewrite skipn_app, Nat.sub_diag, skipn_all. reflexivity.
  - intros Hshort. rewrite length_app in Hshort. lia.
Qed.

Lemma post_exhausted (w chunk_size : Z) (P : bytes) (up_chunks : list AudioChunk) :
  len P < chunk_size * w ->
  Forall (aligned w) up_chunks ->
  anext_post w chunk_size P
             (Raise StopAsyncIteration,
              mkEven (mkBlock true up_chunks) chunk_size None).
Proof.
  intros Hshort Hup. unfold anext_post. cbn [fst snd _chunk_size _cur_chunk _iterator stopped].
  split; [split; [exact Hup | exact I]|]. split; [reflexivity|].
  split; [|auto]. intros Hfit. unfold len in Hshort. lia.
Qed.

(** One call of the loop, entered with [chunk] in hand: it yields the next
    [chunk_size] samples of what is pending when there are as many, and
    otherwise raises [StopAsyncIteration] with the upstream block ended. *)
Lemma even_loop_spec (w chunk_size : Z) :
  0 < w -> 0 < chunk_size ->
  forall (up_chunks : list AudioChunk) (chunk : AudioChunk) (up_stopped : bool)
         (queue : list AudioChunk) (ret : Z),
    Forall (aligned w) up_chunks ->
    aligned w chunk ->
    Forall (aligned w) queue ->
    len (concat (map audio queue)) = ret * w ->
    ret < chunk_size ->
    anext_post w chunk_size
               ((concat (map audio queue) ++ audio chunk)
                  ++ upstream_bytes up_stopped up_chunks)
               (even_loop chunk_size chunk up_stopped up_chunks queue ret).
Proof.
  intros Hw Hcs.
  induction up_chunks as [|c up_chunks IH];
    intros chunk up_stopped queue ret Hup Hchunk Hqueue Hret Hlt;
    rewrite even_loop_unfold; cbv zeta;
    destruct (aligned_sample_cnt w chunk Hw Hchunk) as (k & Hk0 & Hklen & Hcnt);
    destruct (merge_aligned w queue chunk Hqueue Hchunk)
      as (merged & Hmerge & Hmw & Hma);
    rewrite Hcnt, Hmerge, <- Hma;
    (assert (HQ : len (audio merged) = (ret + k) * w)
      by (rewrite Hma; unfold len in *; rewrite length_app; lia));
    (destruct (chunk_size <? ret + k) eqn:Hover;
     [ apply Z.ltb_lt in Hover; now apply (post_split w chunk_size (ret + k)) |]);
    apply Z.ltb_ge in Hover;
    (destruct (ret + k <? chunk_size) eqn:Hunder;
     [ apply Z.ltb_lt in Hunder
     | apply Z.ltb_ge in Hunder; apply post_exact; auto; rewrite HQ; f_equal; lia ]).
  - (* nothing left upstream *)
    assert (Hshort : len (audio merged ++ upstream_bytes up_stopped []) < chunk_size * w).
    { unfold upstream_bytes. destruct up_stopped; cbn [map concat];
        rewrite app_nil_r, HQ; nia. }
    destruct up_stopped; now apply post_exhausted.
  - destruct up_stopped.
    + apply post_exhausted; [|assumption].
      unfold upstream_bytes. rewrite app_nil_r, HQ. nia.
    + apply Forall_cons_iff in Hup. destruct Hup as [Hc Hup'].
      assert (Hqueue' : Forall (aligned w) (queue ++ [chunk])).
      { apply Forall_app. split; [assumption | now constructor]. }
      assert (Hcat : concat (map audio (queue ++ [chunk])) = audio merged).
      { rewrite Hma, map_app, concat_app. cbn. now rewrite app_nil_r. }
      specialize (IH c false (queue ++ [chunk]) (ret + k) Hup' Hc Hqueue').
      rewrite Hcat in IH. specialize (IH HQ Hunder).
      replace (audio merged ++ upstream_bytes false (c :: up_chunks))
        with ((audio merged ++ audio c) ++ upstream_bytes false up_chunks).
      * exact IH.
      * unfold upstream_bytes. cbn [map concat]. now rewrite <- app_assoc.
Qed.

Lemma even_anext_spec (w : Z) (e : EvenChunkIterator) :
  0 < w -> 0 < _chunk_size e -> even_wf w e ->
  anext_post w (_chunk_size e) (pending e) (even_anext e).
Proof.
  intros Hw Hcs [Hup Hcur]. unfold even_anext, pending.
  replace (0 <? _chunk_size e) with true by (symmetry; now apply Z.ltb_lt).
  destruct e as [[st up] cs cur]. cbn [_iterator _chunk_size _cur_chunk stopped impl] in *.
  destruct cur as [chunk|].
  - apply (even_loop_spec w cs Hw Hcs up chunk st [] 0); auto; cbn; lia.
  - unfold block_anext. cbn [stopped impl app].
    destruct st.
    + apply post_exhausted; [|assumption]. cbn. nia.
    + unfold next_chunk, replay_producer. destruct up as [|c up].
      * cbn [block_end impl]. apply post_exhausted; [|constructor]. cbn. nia.
      * cbn [stopped impl]. apply Forall_cons_iff in Hup. destruct Hup as [Hc Hup'].
        apply (even_loop_spec w cs Hw Hcs up c false [] 0); auto; cbn; lia.
Qed.

Lemma even_drain_spec (w chunk_size : Z) :
  0 < w -> 0 < chunk_size ->
  forall (fuel : nat) (e : EvenChunkIterator),
    _chunk_size e = chunk_size ->
    even_wf w e ->
    (length (pending e) < fuel)%nat ->
    let n := Z.to_nat (chunk_size * w) in
    let run := drain fuel e in
    snd (fst run) = Some StopAsyncIteration /\
    Forall (fun o => width o = w /\ length (audio o) = n) (fst (fst run)) /\
    concat (map audio (fst (fst run)))
    = firstn (n * (length (pending e) / n)) (pending e) /\
    length (fst (fst run)) = (length (pending e) / n)%nat /\
    _cur_chunk (snd run) = None /\
    stopped (_iterator (snd run)) = true.
Proof.
  intros Hw Hcs fuel. induction fuel as [|fuel IH]; intros e Hsize Hwf Hfuel n run.
  - lia.
  - assert (Hn : (0 < n)%nat) by (subst n; nia).
    subst run. cbn [drain].
    change (@anext _ _ even_iterator e) with (even_anext e).
    destruct (even_anext_spec w e Hw ltac:(now rewrite Hsize) Hwf)
      as (Hwf' & Hsize' & Hfit & Hshort).
    rewrite Hsize in *. fold n in Hfit, Hshort.
    destruct (Nat.le_gt_cases n (length (pending e))) as [Hle | Hgt].
    + destruct (Hfit Hle) as (c & Hres & Hcw & Hca & Hpend).
      destruct (even_anext e) as [r e']. cbn [fst snd] in *. subst r.
      assert (Hfuel' : (length (pending e') < fuel)%nat).
      { rewrite Hpend, length_skipn. lia. }
      specialize (IH e' Hsize' Hwf' Hfuel'). cbv zeta in IH. fold n in IH.
      destruct (drain fuel e') as [[items ex] e'']. cbn [fst snd] in *.
      destruct IH as (Hex & Hall & Hcat & Hcount & Hcur & Hstop).
      assert (Hdiv : (length (pending e) / n = S (length (pending e') / n))%nat).
      { rewrite Hpend, length_skipn.
        replace (length (pending e)) with (1 * n + (length (pending e) - n))%nat at 1 by lia.
        rewrite Nat.div_add_l by lia. lia. }
      repeat split; try assumption.
      * constructor; [|assumption]. split; [assumption|].
        rewrite Hca, firstn_length_le; lia.
      * cbn [map concat]. rewrite Hcat, Hca, Hdiv, Hpend.
        rewrite Nat.mul_succ_r, Nat.add_comm. symmetry. apply firstn_plus.
      * cbn [length]. now rewrite Hcount, Hdiv.
    + destruct (Hshort Hgt) as (Hres & Hcur & Hstop).
      destruct (even_anext e) as [r e']. cbn [fst snd] in *. subst r.
      cbn [fst snd]. rewrite Nat.div_small by assumption.
      rewrite Nat.mul_0_r. cbn. repeat split; auto.
Qed.

Lemma total_samples_uniform (chunk_size : Z) (outs : list AudioChunk) :
  Forall (fun o => chunk_sample_cnt o = Ok chunk_size) outs ->
  total_samples outs = Ok (chunk_size * len outs).
Proof.
  induction 1 as [|o outs Ho Houts IH]; cbn [total_samples].
  - cbn. f_equal. lia.
  - rewrite Ho, IH. cbn [bind]. f_equal. unfold len. cbn [length]. lia.
Qed.

Lemma total_samples_aligned (w : Z) (up : list AudioChunk) :
  0 < w -> Forall (aligned w) up ->
  total_samples up = Ok (len (concat (map audio up)) / w).
Proof.
  intros Hw. induction 1 as [|c up Hc Hup IH]; cbn [total_samples map concat].
  - reflexivity.
  - destruct (aligned_sample_cnt w c Hw Hc) as (k & Hk0 & Hklen & Hcnt).
    rewrite Hcnt, IH. cbn [bind]. f_equal.
    unfold len in *. rewrite length_app, Nat2Z.inj_add, Hklen.
    rewrite Z.div_add_l by lia. reflexivity.
Qed.

(** C1, as the code has it.  Over an upstream block whose chunks have a
    common positive width and hold whole samples, and for a positive
    [chunk_size], iterating the resegmenting iterator to exhaustion ends
    with [StopAsyncIteration] after yielding chunks of exactly
    [chunk_size] samples each, which are, in order, the successive
    [chunk_size]-sample stretches of the upstream audio.  With [T] samples
    upstream there are [floor (T / chunk_size)] such chunks: the samples
    yielded number [T - T mod chunk_size], and the last [T mod chunk_size]
    samples, pulled from the upstream before its exhaustion was seen, are
    not yielded: the iterator keeps no leftover and the upstream block has
    ended. *)
Theorem resegment_even (w chunk_size : Z) (up : list AudioChunk) :
  0 < chunk_size -> 0 < w -> Forall (aligned w) up ->
  let stream := concat (map audio up) in
  let T := len stream / w in
  let run := drain (S (length stream))
                   (EvenChunkIterator_init (open_block up) chunk_size) in
  let outs := fst (fst run) in
  snd (fst run) = Some StopAsyncIteration /\
  Forall (fun o => chunk_sample_cnt o = Ok chunk_size) outs /\
  concat (map audio outs)
  = firstn (Z.to_nat (chunk_size * w * (T / chunk_size))) stream /\
  len outs = T / chunk_size /\
  total_samples up = Ok T /\
  total_samples outs = Ok (T - T mod chunk_size) /\
  _cur_chunk (snd run) = None /\
  ended (_iterator (snd run)) = true.
Proof.
  intros Hcs Hw Hup. cbv zeta.
  set (stream := concat (map audio up)).
  set (T := len stream / w).
  set (e := EvenChunkIterator_init (open_block up) chunk_size).
  assert (Hpend : pending e = stream) by reflexivity.
  destruct (even_drain_spec w chunk_size Hw Hcs (S (length stream)) e)
    as (Hex & Hall & Hcat & Hcount & Hcur & Hstop).
  { reflexivity. }
  { split; [exact Hup | exact I]. }
  { rewrite Hpend. lia. }
  set (run := drain (S (length stream)) e) in *.
  set (outs := fst (fst run)) in *.
  rewrite Hpend in Hcat, Hcount.
  assert (Hn : Z.of_nat (Z.to_nat (chunk_size * w)) = chunk_size * w) by nia.
  assert (Hblocks : Z.of_nat (length stream / Z.to_nat (chunk_size * w)) = T / chunk_size).
  { rewrite Nat2Z.inj_div, Hn. subst T. unfold len.
    rewrite Z.div_div by lia. f_equal. lia. }
  assert (Huniform : Forall (fun o => chunk_sample_cnt o = Ok chunk_size) outs).
  { eapply Forall_impl; [|exact Hall]. cbn. intros o [Hwo Hlo].
    rewrite chunk_sample_cnt_pos by lia. rewrite Hwo. f_equal.
    unfold len. rewrite Hlo, Hn. now apply Z.div_mul, Z.neq_sym, Z.lt_neq. }
  assert (Hlen : len outs = T / chunk_size).
  { unfold len. now rewrite Hcount. }
  repeat split; try assumption.
  - rewrite Hcat. f_equal. apply Nat2Z.inj.
    rewrite Nat2Z.inj_mul, Hn, Hblocks. nia.
  - now apply total_samples_aligned.
  - rewrite (total_samples_uniform chunk_size outs Huniform), Hlen. f_equal.
    rewrite Z.mod_eq by lia. lia.
Qed.

Lemma resegment_even_witness :
  total_samples
    (fst (fst (drain (S (length (concat (map audio three_hundreds))))
                     (EvenChunkIterator_init (open_block three_hundreds) 160))))
  = Ok 160.
Proof.
  apply (resegment_even 2 160 three_hundreds).
  - reflexivity.
  - reflexivity.
  - repeat constructor; exists 100; reflexivity.
Defined.

(** C1, as the specification words it, does not hold.  With width 2,
    [chunk_size] 160 and three upstream chunks of 100 samples, the iterator
    yields one chunk of 160 samples and then raises [StopAsyncIteration]:
    there is no third output, and 160 of the 300 samples are yielded. *)
Lemma resegment_drops_tail :
  let run := drain 4 (EvenChunkIterator_init (open_block three_hundreds) 160) in
  snd (fst run) = Some StopAsyncIteration /\
  total_samples three_hundreds = Ok 300 /\
  total_samples (fst (fst run)) = Ok 160 /\
  total_samples (fst (fst run)) <> total_samples three_hundreds /\
  nth_error (fst (fst run)) 2 = None.
Proof.
  vm_compute. repeat split; try reflexivity. discriminate.
Qed.

(** The first output of that scenario: all of chunk 1 and the first 60
    samples of chunk 2, the other 40 samples of chunk 2 being kept as the
    leftover chunk. *)
Example resegment_first_output :
  even_anext (EvenChunkIterator_init (open_block three_hundreds) 160)
  = (Ok (mkAudioChunk 0 (repeat x01 200 ++ repeat x02 120) 2 16000),
     mkEven (open_block [steady 2 x03 100]) 160
            (Some (mkAudioChunk 0 (repeat x02 80) 2 16000))).
Proof. vm_compute. reflexivity. Qed.

(** * Further properties *)

(** ** More on the chunk utilities *)

(** X1. Whatever the sample offset, negative or past the end included,
    the two halves of [split_chunk] put end to end are the audio of the
    chunk, and merging them gives the chunk back: no byte is lost or
    repeated. *)
Theorem split_any_offset (C : AudioChunk) (k : Z) :
  audio (fst (split_chunk C k)) ++ audio (snd (split_chunk C k)) = audio C /\
  merge_chunks [fst (split_chunk C k); snd (split_chunk C k)] = Ok C.
Proof.
  split.
  - cbn. apply slice_to_from.
  - unfold merge_chunks, split_chunk. cbn.
    rewrite app_nil_r, slice_to_from. destruct C; reflexivity.
Qed.

(** X2. On a chunk of positive width, an offset at or past the end gives
    the whole chunk and an empty second half; a negative offset [k] cuts
    [-k] samples before the end, and one that reaches before the start
    gives an empty first half and the whole chunk. *)
Theorem split_outside (C : AudioChunk) (k : Z) :
  0 < width C ->
  (len (audio C) <= k * width C ->
   audio (fst (split_chunk C k)) = audio C /\ audio (snd (split_chunk C k)) = []) /\
  (k < 0 -> - (k * width C) <= len (audio C) ->
   audio (fst (split_chunk C k))
   = firstn (Z.to_nat (len (audio C) + k * width C)) (audio C) /\
   len (audio (snd (split_chunk C k))) = - (k * width C)) /\
  (k < 0 -> len (audio C) <= - (k * width C) ->
   audio (fst (split_chunk C k)) = [] /\ audio (snd (split_chunk C k)) = audio C).
Proof.
  intros Hw. cbn [split_chunk fst snd audio]. unfold slice_to, slice_from, slice_bound.
  repeat split.
  - replace (k * width C <? 0) with false
      by (symmetry; apply Z.ltb_ge; unfold len in *; lia).
    rewrite Z.min_r by assumption. unfold len. rewrite Nat2Z.id. apply firstn_all.
  - replace (k * width C <? 0) with false
      by (symmetry; apply Z.ltb_ge; unfold len in *; lia).
    rewrite Z.min_r by assumption. unfold len. rewrite Nat2Z.id. apply skipn_all.
  - replace (k * width C <? 0) with true by (symmetry; apply Z.ltb_lt; nia).
    now rewrite Z.max_r by lia.
  - replace (k * width C <? 0) with true by (symmetry; apply Z.ltb_lt; nia).
    rewrite Z.max_r by lia. unfold len in *. rewrite length_skipn. lia.
  - replace (k * width C <? 0) with true by (symmetry; apply Z.ltb_lt; nia).
    now rewrite Z.max_l by lia.
  - replace (k * width C <? 0) with true by (symmetry; apply Z.ltb_lt; nia).
    now rewrite Z.max_l by lia.
Qed.

Lemma aligned_concat (w : Z) (chunks : list AudioChunk) :
  Forall (aligned w) chunks -> (w | len (concat (map audio chunks))).
Proof.
  induction 1 as [|c chunks [_ Hc] _ IH]; cbn [map concat].
  - exists 0. reflexivity.
  - unfold len in *. rewrite length_app, Nat2Z.inj_add. now apply Z.divide_add_r.
Qed.

(** X4. Merging a non-empty sequence of chunks of one positive width that
    hold whole samples gives a chunk of that width whose sample count is
    the sum of theirs, with the [start_time] and [freq] of the first. *)
Theorem merge_keeps_samples (w : Z) (c0 : AudioChunk) (rest : list AudioChunk) :
  0 < w -> Forall (aligned w) (c0 :: rest) ->
  exists merged T,
    merge_chunks (c0 :: rest) = Ok merged /\
    total_samples (c0 :: rest) = Ok T /\
    chunk_sample_cnt merged = Ok T /\
    aligned w merged /\
    start_time merged = start_time c0 /\
    freq merged = freq c0.
Proof.
  intros Hw Hall.
  assert (Hw0 : width c0 = w) by (inversion Hall as [|? ? [H _] _]; exact H).
  eexists. exists (len (concat (map audio (c0 :: rest))) / w).
  split; [reflexivity|]. split; [now apply total_samples_aligned|].
  split; [|split; [|split; reflexivity]].
  - rewrite chunk_sample_cnt_pos; cbn [width audio]; [|lia]. now rewrite Hw0.
  - split; [exact Hw0|]. cbn [audio]. now apply aligned_concat.
Qed.

Lemma merge_keeps_samples_witness :
  exists merged,
    merge_chunks three_hundreds = Ok merged /\
    total_samples three_hundreds = Ok 300 /\
    chunk_sample_cnt merged = Ok 300.
Proof.
  destruct (merge_keeps_samples 2 (steady 0 x01 100) [steady 1 x02 100; steady 2 x03 100])
    as (merged & T & Hm & Ht & Hc & _).
  - reflexivity.
  - repeat constructor; exists 100; reflexivity.
  - exists merged. split; [exact Hm|].
    assert (HT : T = 300).
    { change (total_samples three_hundreds = Ok T) in Ht.
      vm_compute in Ht. now injection Ht. }
    subst T. split; assumption.
Defined.

(** X3. Splitting a chunk of [n] whole samples at [0 <= k <= n] gives a
    first half of [k] samples and a second half of [n - k], both again of
    the same width and holding whole samples. *)
Theorem split_sample_counts (w : Z) (C : AudioChunk) (k n : Z) :
  0 < w -> aligned w C ->
  chunk_sample_cnt C = Ok n ->
  0 <= k <= n ->
  chunk_sample_cnt (fst (split_chunk C k)) = Ok k /\
  chunk_sample_cnt (snd (split_chunk C k)) = Ok (n - k) /\
  aligned w (fst (split_chunk C k)) /\
  aligned w (snd (split_chunk C k)).
Proof.
  intros Hw HC Hn Hk.
  destruct (aligned_sample_cnt w C Hw HC) as (n' & Hn0 & Hlen & Hcnt).
  rewrite Hcnt in Hn. injection Hn as ->.
  destruct HC as [HwC _].
  assert (Hoff : 0 <= k * width C <= len (audio C)) by (rewrite HwC, Hlen; nia).
  assert (Ha : len (audio (fst (split_chunk C k))) = k * w).
  { cbn. unfold slice_to. rewrite slice_bound_nonneg by assumption.
    unfold len in *. rewrite firstn_length_le; lia. }
  assert (Hb : len (audio (snd (split_chunk C k))) = (n - k) * w).
  { cbn. unfold slice_from. rewrite slice_bound_nonneg by assumption.
    unfold len in *. rewrite length_skipn. lia. }
  assert (Hwa : width (fst (split_chunk C k)) = w) by exact HwC.
  assert (Hwb : width (snd (split_chunk C k)) = w) by exact HwC.
  repeat split.
  - rewrite chunk_sample_cnt_pos by lia. rewrite Hwa, Ha. now rewrite Z.div_mul by lia.
  - rewrite chunk_sample_cnt_pos by lia. rewrite Hwb, Hb. now rewrite Z.div_mul by lia.
  - exact Hwa.
  - exists k. exact Ha.
  - exact Hwb.
  - exists (n - k). exact Hb.
Qed.

Lemma split_sample_counts_witness :
  chunk_sample_cnt (fst (split_chunk (steady 0 x01 100) 60)) = Ok 60 /\
  chunk_sample_cnt (snd (split_chunk (steady 0 x01 100) 60)) = Ok (100 - 60).
Proof.
  destruct (split_sample_counts 2 (steady 0 x01 100) 60 100) as (Ha & Hb & _).
  - reflexivity.
  - split; [reflexivity | exists 100; reflexivity].
  - reflexivity.
  - lia.
  - split; assumption.
Defined.

(** ** More on blocks *)

(** X5. After an [__anext__] a block is ended exactly when it was ended
    before or the call raised [StopAsyncIteration]: a chunk, or any other
    exception of the producer, leaves the block open. *)
Theorem block_ends_exactly_on_stop {S : Type} `{ChunkProducer S}
        (w : race) (b : AudioBlock S) :
  ended (snd (block_anext w b)) = true <->
  ended b = true \/ fst (block_anext w b) = Raise StopAsyncIteration.
Proof.
  unfold block_anext, ended. destruct b as [st s]. cbn [stopped impl].
  destruct st; cbn; [tauto|].
  destruct w; cbn.
  - destruct (next_chunk s) as [[c | e] s']; cbn.
    + split; [discriminate | intros [Hf | Hf]; discriminate].
    + destruct e; cbn; split; try discriminate; try tauto;
        intros [Hf | Hf]; discriminate.
  - tauto.
Qed.

Lemma split_outside_witness :
  audio (fst (split_chunk (steady 0 x01 100) 150)) = audio (steady 0 x01 100) /\
  audio (snd (split_chunk (steady 0 x01 100) 150)) = [].
Proof.
  apply (split_outside (steady 0 x01 100) 150).
  - reflexivity.
  - vm_compute. discriminate.
Defined.

(** ** The queue block *)

Lemma add_chunks_append (items q : ChunkQueue) :
  fold_left add_chunk items q = q ++ items.
Proof.
  revert q. induction items as [|x items IH]; intros q; cbn.
  - now rewrite app_nil_r.
  - rewrite IH. unfold add_chunk. now rewrite <- app_assoc.
Qed.

Lemma queue_drain_chunks (chunks : list AudioChunk) (tail : ChunkQueue) :
  forall fuel, (length chunks < fuel)%nat ->
    queue_drain fuel (mkBlock false (map Some chunks ++ tail))
    = let '(items, e, b) := queue_drain (fuel - length chunks) (mkBlock false tail) in
      (chunks ++ items, e, b).
Proof.
  unfold ChunkQueue in *.
  induction chunks as [|c chunks IH]; intros fuel Hfuel.
  - cbn [map app length]. rewrite Nat.sub_0_r.
    now destruct (queue_drain fuel (mkBlock false tail)) as [[items e] b].
  - destruct fuel as [|fuel]; [cbn in Hfuel; lia|].
    cbn [map app length queue_drain queue_block_anext stopped impl queue_next_chunk].
    rewrite IH by (cbn in Hfuel; lia). cbn [Nat.sub].
    now destruct (queue_drain (fuel - length chunks) (mkBlock false tail))
      as [[items e] b].
Qed.

(** X6. Chunks put on the queue of a queue block come out in the order
    they were put.  After them the sentinel [None] makes the iteration
    raise [StopAsyncIteration] and ends the block, and what was put after
    the sentinel stays on the queue; without a sentinel the iteration waits
    on the emptied queue. *)
Theorem queue_delivers_in_order (chunks : list AudioChunk) (late : ChunkQueue)
        (fuel : nat) :
  (length chunks < fuel)%nat ->
  queue_drain fuel
              (mkBlock false (fold_left add_chunk (map Some chunks ++ None :: late) []))
  = (chunks, Raised StopAsyncIteration, mkBlock true late) /\
  queue_drain fuel (mkBlock false (fold_left add_chunk (map Some chunks) []))
  = (chunks, Waiting, mkBlock false []).
Proof.
  intros Hfuel. rewrite !add_chunks_append. cbn [app].
  split.
  - rewrite queue_drain_chunks by assumption.
    destruct (fuel - length chunks)%nat as [|f] eqn:Hf; [lia|].
    cbn. now rewrite app_nil_r.
  - rewrite <- (app_nil_r (map Some chunks)).
    rewrite queue_drain_chunks by assumption.
    destruct (fuel - length chunks)%nat as [|f] eqn:Hf; [lia|].
    cbn. now rewrite app_nil_r.
Qed.

Lemma queue_delivers_in_order_witness :
  queue_drain 5
              (mkBlock false
                       (fold_left add_chunk
                                  (map Some three_hundreds ++ None :: [Some (tone x0a)]) []))
  = (three_hundreds, Raised StopAsyncIteration, mkBlock true [Some (tone x0a)]).
Proof.
  apply (queue_delivers_in_order three_hundreds [Some (tone x0a)] 5).
  cbn. lia.
Defined.

(** ** Time stamps through the resegmenting iterator *)

Lemma merge_start_time (queue : list AudioChunk) (chunk merged : AudioChunk) :
  merge_chunks (queue ++ [chunk]) = Ok merged ->
  start_time merged = start_time (hd chunk queue).
Proof.
  destruct queue as [|c0 queue]; cbn; intros Hm; injection Hm as <-; reflexivity.
Qed.

Lemma even_loop_start_time (chunk_size : Z) :
  forall (up_chunks : list AudioChunk) (chunk : AudioChunk) (up_stopped : bool)
         (queue : list AudioChunk) (ret : Z) (c : AudioChunk) (e' : EvenChunkIterator),
    even_loop chunk_size chunk up_stopped up_chunks queue ret = (Ok c, e') ->
    start_time c = start_time (hd chunk queue) /\
    forall l, _cur_chunk e' = Some l -> start_time l = start_time (hd chunk queue).
Proof.
  induction up_chunks as [|c1 up_chunks IH];
    intros chunk up_stopped queue ret c e' Hloop;
    rewrite even_loop_unfold in Hloop; cbv zeta in Hloop;
    (destruct (chunk_sample_cnt chunk) as [k|ex]; [|discriminate]);
    (destruct (chunk_size <? ret + k);
     [ destruct (merge_chunks (queue ++ [chunk])) as [merged|ex] eqn:Hm; [|discriminate];
       apply merge_start_time in Hm; cbn in Hloop;
       injection Hloop as <- <-; cbn; split; [assumption|];
       intros l Hl; injection Hl as <-; assumption
     |]);
    (destruct (ret + k <? chunk_size);
     [| destruct (merge_chunks (queue ++ [chunk])) as [merged|ex] eqn:Hm; [|discriminate];
        apply merge_start_time in Hm;
        injection Hloop as <- <-; cbn; split; [assumption | discriminate] ]).
  - destruct up_stopped; discriminate.
  - destruct up_stopped; [discriminate|].
    apply IH in Hloop. now destruct queue.
Qed.

(** X7. When the resegmenting iterator holds a leftover chunk, the chunk
    it yields next and the leftover it then keeps carry the [start_time] of
    that leftover, whatever the start times of the upstream chunks their
    audio comes from. *)
Theorem leftover_keeps_start_time (e e' : EvenChunkIterator) (l c : AudioChunk) :
  _cur_chunk e = Some l ->
  even_anext e = (Ok c, e') ->
  start_time c = start_time l /\
  forall l', _cur_chunk e' = Some l' -> start_time l' = start_time l.
Proof.
  intros Hcur Hnext. unfold even_anext in Hnext. rewrite Hcur in Hnext.
  destruct (0 <? _chunk_size e); [|discriminate].
  now apply even_loop_start_time in Hnext.
Qed.

Lemma leftover_keeps_start_time_witness :
  exists c e',
    even_anext after_first_output = (Ok c, e') /\
    start_time c = 10 /\
    audio c = repeat x02 80 ++ repeat x03 200 ++ repeat x04 40.
Proof.
  destruct (even_anext after_first_output) as [[c|ex] e'] eqn:Hnext;
    [|vm_compute in Hnext; discriminate].
  exists c, e'. split; [reflexivity|].
  destruct (leftover_keeps_start_time after_first_output e'
              (mkAudioChunk 10 (repeat x02 80) 2 16000) c eq_refl Hnext) as [Ht _].
  split; [exact Ht|].
  vm_compute in Hnext. injection Hnext as <- _. reflexivity.
Defined.

Example after_first_output_reached :
  even_anext (EvenChunkIterator_init (open_block four_hundreds) 160)
  = (Ok (mkAudioChunk 10 (repeat x01 200 ++ repeat x02 120) 2 16000),
     after_first_output).
Proof. vm_compute. reflexivity. Qed.

(** ** More on the squelch decision *)

Lemma mapM_perm {A B : Type} (f : A -> result B) (l l' : list A) :
  Permutation l l' ->
  forall bs, mapM f l = Ok bs ->
             exists bs', mapM f l' = Ok bs' /\ Permutation bs bs'.
Proof.
  induction 1 as [| x l l' Hp IH | x y l | l l' l'' Hp1 IH1 Hp2 IH2];
    intros bs Hm.
  - exists bs. split; [assumption | reflexivity].
  - cbn in *. destruct (f x) as [b|e]; [|discriminate]. cbn in *.
    destruct (mapM f l) as [bl|e]; [|discriminate]. cbn in Hm. injection Hm as <-.
    destruct (IH bl eq_refl) as (bl' & -> & Hbl). cbn.
    exists (b :: bl'). split; [reflexivity | now constructor].
  - cbn in *. destruct (f y) as [by_|e]; [|discriminate]. cbn in *.
    destruct (f x) as [bx|e]; [|discriminate]. cbn in *.
    destruct (mapM f l) as [bl|e]; [|discriminate]. cbn in Hm. injection Hm as <-.
    exists (bx :: by_ :: bl). split; [reflexivity | apply perm_swap].
  - destruct (IH1 bs Hm) as (bs' & Hm' & Hp').
    destruct (IH2 bs' Hm') as (bs'' & Hm'' & Hp'').
    exists bs''. split; [assumption | now transitivity bs'].
Qed.

Lemma sorted_of_perm (l l' : list Z) : Permutation l l' -> sorted l = sorted l'.
Proof.
  intros Hp. apply ascending_unique; try apply sorted_ascending.
  rewrite !sorted_perm. exact Hp.
Qed.

Section DecisionExtras.

Variable rms : bytes -> Z -> result Z.

(** X8. The decision of [check_squelch] does not depend on the order of
    the chunks in the window, when every chunk has an RMS. *)
Theorem check_squelch_order_irrelevant (level : option Q) (is_triggered : bool)
        (chunks chunks' : list AudioChunk) (vals : list Z) :
  Permutation chunks chunks' ->
  mapM (fun x => rms (audio x) (width x)) chunks = Ok vals ->
  check_squelch rms level is_triggered chunks'
  = check_squelch rms level is_triggered chunks.
Proof.
  intros Hp Hvals.
  destruct (mapM_perm _ _ _ Hp vals Hvals) as (vals' & Hvals' & Hpv).
  unfold check_squelch. rewrite Hvals, Hvals'. cbn [bind].
  rewrite (sorted_of_perm _ _ Hpv). unfold len.
  now rewrite (Permutation_length Hpv).
Qed.

(** X9. For a level that is not negative, a window on which the squelch
    triggers from the silent state also keeps it triggered: the two
    thresholds cannot make the state flip back on the same window. *)
Theorem trigger_implies_hold (L : Q) (chunks : list AudioChunk) :
  (0 <= L)%Q ->
  check_squelch rms (Some L) false chunks = Ok true ->
  check_squelch rms (Some L) true chunks = Ok true.
Proof.
  intros HL. unfold check_squelch.
  destruct (mapM (fun x => rms (audio x) (width x)) chunks) as [vals|e];
    [|discriminate]. cbn [bind].
  destruct (index (sorted vals) (Qtrunc (inject_Z (len vals) * (1 # 2)))) as [m|e];
    [|discriminate]. cbn [bind].
  destruct (Qltb L (inject_Z m)) eqn:Hup; [|discriminate]. intros _.
  apply Qltb_lt in Hup.
  replace (Qltb (inject_Z m) (L * (4 # 5))) with false; [reflexivity|].
  symmetry. apply Qltb_ge. lra.
Qed.

End DecisionExtras.

Lemma check_squelch_order_irrelevant_witness :
  check_squelch rms_le (Some (25 # 1)) false [tone x28; tone x0a; tone x1e]
  = check_squelch rms_le (Some (25 # 1)) false [tone x0a; tone x1e; tone x28].
Proof.
  apply (check_squelch_order_irrelevant rms_le (Some (25 # 1)) false
           [tone x0a; tone x1e; tone x28] [tone x28; tone x0a; tone x1e] [10; 30; 40]).
  - apply Permutation_sym. apply (Permutation_cons_append [tone x0a; tone x1e] (tone x28)).
  - reflexivity.
Defined.

Lemma trigger_implies_hold_witness :
  check_squelch rms_le (Some (25 # 1)) true [tone x0a; tone x1e; tone x28] = Ok true.
Proof.
  apply (trigger_implies_hold rms_le (25 # 1)).
  - discriminate.
  - reflexivity.
Defined.

(** ** More on calibration *)


Section CalibrationExtras.

Variable rms : bytes -> Z -> result Z.

Lemma detect_after_rms (s : SquelchedSource) (audio_chunks : list AudioChunk)
      (threshold : Q) (vals : list Z) :
  mapM (fun x => rms (audio x) (_sample_width s))
       (filter (fun x => len (audio x) =? _sample_size s * _sample_width s)
               audio_chunks)
  = Ok vals ->
  detect_squelch_level rms s audio_chunks threshold
  = match index (slice_from (sorted vals)
                            (Qtrunc (threshold * inject_Z (len vals)))) 0 with
    | Raise e => (Raise e, s)
    | Ok level => (Ok level, set_level s (Some (inject_Z level)))
    end.
Proof. intros Hvals. unfold detect_squelch_level. now rewrite Hvals. Qed.

(** X10. When no collected chunk has the byte length
    [sample_size * _sample_width], as with chunks of a source that is not
    16-bit, calibration raises [IndexError] and leaves [squelch_level] as
    it was. *)
Theorem calibration_without_full_chunks (s : SquelchedSource)
        (audio_chunks : list AudioChunk) (threshold : Q) :
  Forall (fun x => len (audio x) <> _sample_size s * _sample_width s) audio_chunks ->
  detect_squelch_level rms s audio_chunks threshold = (Raise IndexError, s).
Proof.
  intros Hnone.
  assert (Hkept : filter (fun x => len (audio x) =? _sample_size s * _sample_width s)
                         audio_chunks = []).
  { induction Hnone as [|x l Hx _ IH]; cbn; [reflexivity|].
    apply Z.eqb_neq in Hx. now rewrite Hx. }
  rewrite (detect_after_rms s audio_chunks threshold []).
  - cbn [sorted]. unfold slice_from. now rewrite skipn_nil.
  - now rewrite Hkept.
Qed.

(** X11. With a threshold of 1 or more calibration raises [IndexError]
    and leaves [squelch_level] as it was, whatever was collected. *)
Theorem calibration_threshold_too_high (s : SquelchedSource)
        (audio_chunks : list AudioChunk) (threshold : Q) (vals : list Z) :
  mapM (fun x => rms (audio x) (_sample_width s))
       (filter (fun x => len (audio x) =? _sample_size s * _sample_width s)
               audio_chunks)
  = Ok vals ->
  (1 <= threshold)%Q ->
  detect_squelch_level rms s audio_chunks threshold = (Raise IndexError, s).
Proof.
  intros Hvals Hthr. rewrite (detect_after_rms s audio_chunks threshold vals Hvals).
  assert (Hnn : (0 <= threshold)%Q) by lra.
  rewrite Qtrunc_floor by now apply Qmult_len_nonneg.
  assert (Hge : len vals <= Qfloor (threshold * inject_Z (len vals))).
  { rewrite <- (Qfloor_Z (len vals)) at 1. apply Qfloor_resp_le.
    assert (H0 : (0 <= inject_Z (len vals))%Q).
    { unfold Qle, len. cbn. lia. }
    nra. }
  unfold slice_from, slice_bound.
  replace (Qfloor (threshold * inject_Z (len vals)) <? 0) with false
    by (symmetry; apply Z.ltb_ge; unfold len in *; lia).
  assert (Hlen : len (sorted vals) = len vals)
    by (unfold len; now rewrite sorted_length).
  rewrite Z.min_r by lia. unfold len at 1. rewrite Nat2Z.id, skipn_all.
  reflexivity.
Qed.


End CalibrationExtras.

Lemma calibration_without_full_chunks_witness :
  detect_squelch_level rms_le calibrating_source eight_bit_chunks default_threshold
  = (Raise IndexError, calibrating_source).
Proof.
  apply (calibration_without_full_chunks rms_le calibrating_source eight_bit_chunks).
  repeat constructor; discriminate.
Defined.

Lemma calibration_threshold_too_high_witness :
  detect_squelch_level rms_le calibrating_source ten_tones (1 # 1)
  = (Raise IndexError, calibrating_source).
Proof.
  apply (calibration_threshold_too_high rms_le calibrating_source ten_tones (1 # 1)
           [10; 20; 30; 40; 50; 60; 70; 80; 90; 100]).
  - reflexivity.
  - discriminate.
Defined.


(** ** More on the squelch processor *)

Section ProcessorExtras.

Variable rms : bytes -> Z -> result Z.

(** X13. A squelch processor with [prefix_samples = 0] never returns a
    block: its window stays empty, on which the decision cannot be
    taken. *)
Theorem no_block_without_window (fuel : nat) (s : SquelchedSource) :
  _prefix_samples s = 0 ->
  window_bounded s ->
  forall blk s', _next_block rms fuel s <> Some (Ok blk, s').
Proof.
  intros Hzero Hb blk s' Hnext. unfold _next_block in Hnext.
  destruct (refresh s) as [[m0 | e] s0] eqn:Href; [|discriminate].
  destruct (refresh_bounded s s0 m0 Hb Href) as (_ & _ & Hsize & Hlen).
  destruct (scan rms fuel (squelch_level s0) m0) as [[[u | e] m]|] eqn:Hscan;
    try discriminate.
  destruct (scan_triggers rms fuel _ m0 m u Hscan) as (Htrig & Hsize' & Hlen').
  assert (Hnil : memory m = []).
  { specialize (Hlen' Hlen). rewrite Hsize', Hsize, Hzero in Hlen'.
    destruct (memory m); [reflexivity|]. unfold len in Hlen'. cbn in Hlen'. lia. }
  rewrite Hnil in Htrig. discriminate.
Qed.

(** X14. On a new squelch processor with a [sample_size] that is not
    positive, [_next_block] takes a block from the source and raises
    [AssertionError] without reading a chunk of it. *)
Theorem nonpositive_sample_size (fuel : nat) (blocks : list (list AudioChunk))
        (b : list AudioChunk) (running_ : bool)
        (sample_size prefix_samples : Z) (level : option Q) :
  sample_size <= 0 ->
  0 <= prefix_samples ->
  exists s',
    _next_block rms (S fuel)
                (SquelchedSource_init (mkReplaySource running_ (b :: blocks))
                                      sample_size level prefix_samples)
    = Some (Raise AssertionError, s') /\
    src_blocks (_source s') = blocks /\
    option_map memory (_mem_iter s') = Some [] /\
    option_map (fun m => impl (_iterator (ri_iterator m))) (_mem_iter s') = Some b.
Proof.
  intros Hsize Hprefix. unfold _next_block, refresh, src_block_ended.
  cbn [SquelchedSource_init _mem_iter _src_block option_map _source source_anext
       src_blocks _sample_size _prefix_samples].
  unfold RememberingIterator_init.
  replace (prefix_samples <? 0) with false by (symmetry; apply Z.ltb_ge; lia).
  cbn [scan]. unfold anext at 1, remembering_iterator, remembering_anext.
  cbn [ri_iterator]. unfold anext at 1, even_iterator, even_anext.
  cbn [EvenChunkIterator_init _chunk_size].
  replace (0 <? sample_size) with false by (symmetry; apply Z.ltb_ge; lia).
  cbn. eexists. split; [reflexivity|]. cbn. auto.
Qed.

Lemma scan_terminates (w : Z) (level : option Q) :
  0 < w ->
  forall (fuel : nat) (m : MemIter),
    even_wf w (ri_iterator m) ->
    0 < _chunk_size (ri_iterator m) ->
    (length (pending (ri_iterator m)) < fuel)%nat ->
    scan rms fuel level m <> None.
Proof.
  intros Hw. induction fuel as [|fuel IH]; intros m Hwf Hcs Hfuel; [lia|].
  cbn [scan].
  change (@anext _ _ remembering_iterator m) with (remembering_anext m).
  unfold remembering_anext.
  change (@anext _ _ even_iterator (ri_iterator m)) with (even_anext (ri_iterator m)).
  destruct (even_anext_spec w (ri_iterator m) Hw Hcs Hwf)
    as (Hwf' & Hsize' & Hfit & Hshort).
  set (n := Z.to_nat (_chunk_size (ri_iterator m) * w)) in *.
  assert (Hn : (0 < n)%nat) by (subst n; nia).
  destruct (even_anext (ri_iterator m)) as [[c | e] e'] eqn:Hnext; [|discriminate].
  cbn [fst snd] in *.
  destruct (check_squelch rms level false _) as [[|]|ex]; try discriminate.
  apply IH; cbn [ri_iterator]; try assumption.
  - now rewrite Hsize'.
  - destruct (Nat.le_gt_cases n (length (pending (ri_iterator m)))) as [Hle | Hgt].
    + destruct (Hfit Hle) as (c' & _ & _ & _ & Hpend).
      rewrite Hpend, length_skipn. lia.
    + destruct (Hshort Hgt) as (Hres & _). discriminate.
Qed.

(** X15. On a source whose chunks have one positive width and hold whole
    samples, and with a positive [sample_size], the loop of [_next_block]
    leaves within [squelch_fuel] turns: it returns a block or raises. *)
Theorem next_block_returns (w : Z) (s : SquelchedSource) (fuel : nat) :
  0 < w ->
  0 < _sample_size s ->
  squelch_wf w s ->
  (squelch_fuel s <= fuel)%nat ->
  _next_block rms fuel s <> None.
Proof.
  intros Hw Hsize [Hsrc Hmem] Hfuel. unfold _next_block, refresh, src_block_ended.
  unfold squelch_fuel in Hfuel.
  assert (Hfresh :
            match
              (match source_anext (_source s) with
               | (Raise e, src) => (Raise e, set_source s src)
               | (Ok blk, src) =>
                   let s1 := set_src_block (set_source s src) blk in
                   let even_iter := EvenChunkIterator_init blk (_sample_size s) in
                   match RememberingIterator_init even_iter (_prefix_samples s) with
                   | Raise e => (Raise e, s1)
                   | Ok m => (Ok m, set_mem_iter s1 m)
                   end
               end)
            with
            | (Raise e, s') => Some (Raise e, s')
            | (Ok m, s') =>
                match scan rms fuel (squelch_level s') m with
                | None => None
                | Some (Raise e, m') => Some (Raise e, set_mem_iter s' m')
                | Some (Ok _, m') =>
                    Some (Ok (mkBlock false (mkSquelchedBlock (squelch_level s') false)),
                          set_mem_iter s' m')
                end
            end <> None).
  { unfold source_anext.
    destruct (src_blocks (_source s)) as [|b rest] eqn:Hb; [discriminate|].
    cbv zeta. unfold RememberingIterator_init.
    destruct (_prefix_samples s <? 0); [discriminate|].
    set (m := mkRemembering (EvenChunkIterator_init (open_block b) (_sample_size s))
                            (_prefix_samples s) []).
    assert (Hscan : scan rms fuel (squelch_level
                      (set_mem_iter (set_src_block
                         (set_source s (mkReplaySource (src_running (_source s)) rest))
                         (open_block b)) m)) m <> None).
    { apply (scan_terminates w _ Hw); cbn; try assumption.
      - split; [|exact I]. now inversion Hsrc.
      - unfold pending, upstream_bytes. cbn. lia. }
    destruct (scan rms fuel _ m) as [[[u|e] m']|]; [discriminate | discriminate |].
    now contradiction Hscan. }
  destruct (_mem_iter s) as [m|] eqn:Hm.
  - destruct (ended (_iterator (ri_iterator m))); [exact Hfresh|].
    destruct Hmem as [Hwf Hcs].
    assert (Hscan : scan rms fuel (squelch_level s) m <> None).
    { apply (scan_terminates w _ Hw); try assumption. lia. }
    destruct (scan rms fuel (squelch_level s) m) as [[[u|e] m']|];
      [discriminate | discriminate | now contradiction Hscan].
  - destruct (option_map ended (_src_block s)) as [[|]|];
      [exact Hfresh | discriminate | exact Hfresh].
Qed.

End ProcessorExtras.

Lemma no_block_without_window_witness :
  exists e s', _next_block rms_le 5 windowless_source = Some (Raise e, s').
Proof.
  destruct (_next_block rms_le 5 windowless_source) as [[[blk | e] s']|] eqn:Hrun.
  - exfalso.
    apply (no_block_without_window rms_le 5 windowless_source eq_refl I blk s').
    exact Hrun.
  - exists e, s'. reflexivity.
  - vm_compute in Hrun. discriminate.
Defined.

Lemma nonpositive_sample_size_witness :
  exists s',
    _next_block rms_le 1
                (SquelchedSource_init (mkReplaySource false [ten_tones]) 0
                                      (Some (5 # 1)) 4)
    = Some (Raise AssertionError, s') /\
    src_blocks (_source s') = [].
Proof.
  destruct (nonpositive_sample_size rms_le 0 [] ten_tones false 0 4 (Some (5 # 1)))
    as (s' & Hrun & Hsrc & _).
  - lia.
  - lia.
  - exists s'. split; assumption.
Defined.

Lemma next_block_returns_witness :
  exists r, _next_block rms_le (squelch_fuel deaf_source) deaf_source = Some r.
Proof.
  destruct (_next_block rms_le (squelch_fuel deaf_source) deaf_source)
    as [r|] eqn:Hrun.
  - exists r. reflexivity.
  - exfalso. revert Hrun.
    apply (next_block_returns rms_le 2 deaf_source).
    + reflexivity.
    + reflexivity.
    + split; [|exact I]. cbn. constructor; [|constructor].
      repeat constructor; exists 1; reflexivity.
    + apply Nat.le_refl.
Defined.

(** ** Iterating a squelched block *)

Section SquelchedIterationProperties.

Variable rms : bytes -> Z -> result Z.




End SquelchedIterationProperties.


(** ** Wave sources *)

Lemma nth_error_set_nth {A : Type} (l : list A) :
  forall (i : nat) (x y : A),
    nth_error l i = Some y -> nth_error (set_nth i x l) i = Some x.
Proof.
  induction l as [|a l IH]; intros [|i] x y Hn; cbn in *; try discriminate.
  - reflexivity.
  - eapply IH. eassumption.
Qed.

Section WaveProperties.

Variable tomono : bytes -> Z -> result bytes.

Lemma wave_block_step_data (n : Z) (o : Wave.Opened) (file : WaveFile)
      (x : byte) (rest : bytes) (rs : list Wave_read)
      (r br : bool) (cf : option Z) (op : option Wave.Opened)
      (q : option ChunkQueue) (rb : option bool) :
  0 < n ->
  0 < wav_nchannels file * wav_sampwidth file ->
  Wave.o_channels o <> 2 ->
  nth_error rs (Wave.o_wave_fp o) = Some (mkWaveRead file (x :: rest) false) ->
  let k := Z.to_nat (n * (wav_nchannels file * wav_sampwidth file)) in
  Wave.block_next tomono ChunkFirst
                  (Wave.mkWaveSource
                     r (Some (mkBlock false (Wave.mkWaveBlock (Some o) n)))
                     br file cf op q rb rs)
  = Some (Ok (mkAudioChunk 0 (firstn k (x :: rest)) (Wave.o_width o) (Wave.o_freq o)),
          Wave.mkWaveSource
            r (Some (mkBlock false (Wave.mkWaveBlock (Some o) n)))
            br file cf op q rb
            (set_nth (Wave.o_wave_fp o)
                     (mkWaveRead file (skipn k (x :: rest)) false) rs)).
Proof.
  intros Hn Hfs Hch Hfp k.
  assert (Hk : (0 < k)%nat) by (subst k; nia).
  unfold Wave.block_next. cbn [Wave._last_block Wave.readers stopped impl].
  unfold block_anext. cbn [stopped impl].
  unfold next_chunk, Wave.producer, Wave._next_chunk.
  cbn [Wave.b_opened Wave._nframes]. rewrite Hfp.
  unfold readframes, framesize. cbn [fp_rest fp_closed fp_file].
  replace (n =? 0) with false by (symmetry; apply Z.eqb_neq; lia).
  replace (Wave.o_channels o =? 2) with false by (symmetry; now apply Z.eqb_neq).
  replace (n * (wav_nchannels file * wav_sampwidth file) <? 0) with false
    by (symmetry; apply Z.ltb_ge; nia).
  fold k. destruct k as [|k']; [lia|].
  cbn [firstn]. unfold len at 1. cbn [length].
  replace (Z.of_nat (S (length (firstn k' rest))) =? 0) with false
    by (symmetry; apply Z.eqb_neq; lia).
  reflexivity.
Qed.

Lemma wave_block_step_end (n : Z) (o : Wave.Opened) (file : WaveFile)
      (closed : bool) (rs : list Wave_read)
      (r br : bool) (cf : option Z) (op : option Wave.Opened)
      (q : option ChunkQueue) (rb : option bool) :
  Wave.o_channels o <> 2 ->
  nth_error rs (Wave.o_wave_fp o) = Some (mkWaveRead file [] closed) ->
  Wave.block_next tomono ChunkFirst
                  (Wave.mkWaveSource
                     r (Some (mkBlock false (Wave.mkWaveBlock (Some o) n)))
                     br file cf op q rb rs)
  = Some (Raise StopAsyncIteration,
          Wave.mkWaveSource
            r (Some (mkBlock true (Wave.mkWaveBlock (Some o) n)))
            br file cf op q rb
            (set_nth (Wave.o_wave_fp o) (mkWaveRead file [] closed) rs)).
Proof.
  intros Hch Hfp.
  unfold Wave.block_next. cbn [Wave._last_block Wave.readers stopped impl].
  unfold block_anext. cbn [stopped impl].
  unfold next_chunk, Wave.producer, Wave._next_chunk.
  cbn [Wave.b_opened Wave._nframes]. rewrite Hfp.
  unfold readframes. cbn [fp_rest fp_closed fp_file].
  replace (Wave.o_channels o =? 2) with false by (symmetry; now apply Z.eqb_neq).
  destruct (n =? 0); reflexivity.
Qed.

Lemma wave_play_reads_all (n : Z) (o : Wave.Opened) (file : WaveFile) :
  0 < n ->
  0 < wav_nchannels file * wav_sampwidth file ->
  Wave.o_channels o <> 2 ->
  forall (fuel : nat) (rest : bytes) (rs : list Wave_read)
         (r br : bool) (cf : option Z) (op : option Wave.Opened)
         (q : option ChunkQueue) (rb : option bool),
    nth_error rs (Wave.o_wave_fp o) = Some (mkWaveRead file rest false) ->
    (length rest < fuel)%nat ->
    let run := Wave.play tomono fuel
                         (Wave.mkWaveSource
                            r (Some (mkBlock false (Wave.mkWaveBlock (Some o) n)))
                            br file cf op q rb rs) in
    snd (fst run) = Some StopAsyncIteration /\
    concat (map audio (fst (fst run))) = rest /\
    Forall (fun c => start_time c = 0 /\ width c = Wave.o_width o /\
                     freq c = Wave.o_freq o /\
                     0 < len (audio c) <= n * (wav_nchannels file * wav_sampwidth file))
           (fst (fst run)) /\
    option_map ended (Wave._last_block (snd run)) = Some true.
Proof.
  intros Hn Hfs Hch.
  induction fuel as [|fuel IH]; intros rest rs r br cf op q rb Hfp Hfuel; [lia|].
  cbv zeta. cbn [Wave.play].
  destruct rest as [|x rest].
  - rewrite (wave_block_step_end n o file false rs r br cf op q rb Hch Hfp).
    cbn. auto.
  - rewrite (wave_block_step_data n o file x rest rs r br cf op q rb Hn Hfs Hch Hfp).
    set (k := Z.to_nat (n * (wav_nchannels file * wav_sampwidth file))).
    assert (Hk : (0 < k)%nat) by (subst k; nia).
    specialize (IH (skipn k (x :: rest))
                   (set_nth (Wave.o_wave_fp o)
                            (mkWaveRead file (skipn k (x :: rest)) false) rs)
                   r br cf op q rb).
    cbv zeta in IH.
    destruct (Wave.play tomono fuel _) as [[items e] s'].
    cbn [fst snd] in *.
    destruct IH as (He & Hcat & Hall & Hend).
    + eapply nth_error_set_nth. eassumption.
    + rewrite length_skipn. cbn [length] in *. lia.
    + repeat split; try assumption.
      * cbn [map concat audio]. rewrite Hcat. apply firstn_skipn.
      * constructor; [|assumption]. cbn [start_time width freq audio].
        repeat split; try reflexivity.
        -- unfold len. destruct k; [lia|]. cbn [firstn length]. lia.
        -- unfold len. rewrite length_firstn. lia.
Qed.

(** X18. A started wave source over a mono file, with a positive
    [chunk_frames], returns a block whose iteration yields the frame data
    of the file in order and exactly once, in chunks of at most
    [chunk_frames] frames with [start_time] 0 and the width and rate of
    the file, and then raises [StopAsyncIteration] and ends the block. *)
Theorem wave_source_plays_file (file : WaveFile) (n : Z) :
  wav_nchannels file = 1 ->
  0 < wav_sampwidth file ->
  0 < n ->
  exists blk s1 s2,
    Wave.start (Wave.init file (Some n)) = (Ok tt, s1) /\
    Wave.source_anext s1 = (Ok blk, s2) /\
    let run := Wave.play tomono (S (length (wav_data file))) s2 in
    snd (fst run) = Some StopAsyncIteration /\
    concat (map audio (fst (fst run))) = wav_data file /\
    Forall (fun c => start_time c = 0 /\ width c = wav_sampwidth file /\
                     freq c = wav_framerate file /\
                     0 < len (audio c) <= n * wav_sampwidth file)
           (fst (fst run)) /\
    option_map ended (Wave._last_block (snd run)) = Some true.
Proof.
  intros Hch Hw Hn.
  unfold Wave.start, Wave.init. cbn [Wave._wave_path Wave.readers length app].
  rewrite Hch. cbn [Z.leb Z.compare].
  eexists. eexists. eexists. split; [reflexivity|].
  unfold Wave.source_anext, Wave._next_block, Wave._get_block, Wave.set_block_returned.
  cbn [Wave._block_returned Wave._chunk_frames Wave._opened Wave.running
       Wave._last_block Wave._wave_path Wave._out_queue Wave._returned_block
       Wave.readers].
  replace (n =? 0) with false by (symmetry; apply Z.eqb_neq; lia).
  cbn [bind]. split; [reflexivity|].
  pose proof (wave_play_reads_all n
                (Wave.mkOpened 0 (wav_sampwidth file) (wav_framerate file) 1) file
                Hn ltac:(rewrite Hch; lia) ltac:(cbn; lia)
                (S (length (wav_data file))) (wav_data file) [wave_open file]
                true true (Some n)
                (Some (Wave.mkOpened 0 (wav_sampwidth file) (wav_framerate file) 1))
                (Some []) (Some false) eq_refl ltac:(lia)) as Hplay.
  cbv zeta in Hplay. cbn [Wave.o_width Wave.o_freq] in Hplay.
  rewrite Hch, Z.mul_1_l in Hplay. exact Hplay.
Qed.

(** X19. Without [chunk_frames], the block of a started wave source over
    a non-empty mono file of whole frames yields the whole frame data as
    one chunk and then ends. *)
Theorem wave_source_default_whole_file (file : WaveFile) :
  wav_nchannels file = 1 ->
  0 < wav_sampwidth file ->
  wav_data file <> [] ->
  (wav_sampwidth file | len (wav_data file)) ->
  exists blk s1 s2 s3,
    Wave.start (Wave.init file None) = (Ok tt, s1) /\
    Wave.source_anext s1 = (Ok blk, s2) /\
    Wave.play tomono 2 s2
    = ([mkAudioChunk 0 (wav_data file) (wav_sampwidth file) (wav_framerate file)],
       Some StopAsyncIteration, s3) /\
    option_map ended (Wave._last_block s3) = Some true.
Proof.
  intros Hch Hw Hne [k Hk].
  unfold Wave.start, Wave.init. cbn [Wave._wave_path Wave.readers length app].
  rewrite Hch. cbn [Z.leb Z.compare].
  eexists. eexists. eexists. eexists. split; [reflexivity|].
  unfold Wave.source_anext, Wave._next_block, Wave._get_block, Wave.set_block_returned.
  cbn [Wave._block_returned Wave._chunk_frames Wave._opened Wave.running
       Wave._last_block Wave._wave_path Wave._out_queue Wave._returned_block
       Wave.readers Wave.o_wave_fp nth_error bind].
  split; [reflexivity|].
  unfold getnframes, framesize, wave_open. cbn [fp_file].
  rewrite Hch, Z.mul_1_l, Hk, Z.div_mul by lia.
  assert (Hkpos : 0 < k).
  { destruct (wav_data file); [contradiction|]. unfold len in Hk. cbn in Hk. nia. }
  destruct (wav_data file) as [|x rest] eqn:Hdata; [contradiction|].
  cbn [Wave.play].
  rewrite (wave_block_step_data k
             (Wave.mkOpened 0 (wav_sampwidth file) (wav_framerate file) 1) file
             x rest); try assumption; try (rewrite Hch; lia); try (cbn; lia).
  2:{ reflexivity. }
  rewrite Hch, Z.mul_1_l, <- Hk. unfold len. rewrite Nat2Z.id.
  rewrite firstn_all, skipn_all.
  cbn [set_nth Wave.o_wave_fp].
  rewrite (wave_block_step_end k
             (Wave.mkOpened 0 (wav_sampwidth file) (wav_framerate file) 1) file
             false); [| cbn; lia | reflexivity].
  cbn [Wave.o_width Wave.o_freq]. split; reflexivity.
Qed.

Lemma step_keeps_returned (o : Wave.op) (s : Wave.WaveSource) :
  Wave._block_returned s = true ->
  Wave._block_returned (snd (Wave.step tomono o s)) = true /\
  Wave.blocks_returned [fst (Wave.step tomono o s)] = O.
Proof.
  intros Hret. destruct o as [| | |w]; cbn [Wave.step].
  - unfold Wave.start. destruct (wav_nchannels (Wave._wave_path s) <=? 2); cbn; auto.
  - unfold Wave.stop. destruct (Wave._out_queue s), (Wave._opened s); cbn; auto.
  - unfold Wave.source_anext, Wave._next_block. rewrite Hret. cbn. auto.
  - unfold Wave.block_next. destruct (Wave._last_block s) as [b|]; [|cbn; auto].
    destruct (block_anext w _) as [r pb]. cbn. auto.
Qed.

Lemma no_block_once_returned (ops : list Wave.op) :
  forall s, Wave._block_returned s = true ->
            Wave.blocks_returned (fst (Wave.run_ops tomono ops s)) = O.
Proof.
  induction ops as [|o ops IH]; intros s Hret; [reflexivity|].
  cbn [Wave.run_ops]. destruct (step_keeps_returned o s Hret) as [Hret' Hzero].
  destruct (Wave.step tomono o s) as [ob s']. cbn [fst snd] in *.
  specialize (IH s' Hret').
  destruct (Wave.run_ops tomono ops s') as [obs' s'']. cbn [fst] in *.
  destruct ob as [r | [blk|e] | r]; cbn in *; try assumption. discriminate.
Qed.

(** X20. Whatever is done with a wave source and its block ([start()],
    [stop()], [__anext__] on either, in any order and number), the source
    returns at most one block: [start()] sets [_returned_block], which
    nothing reads, and leaves [_block_returned] as it is. *)
Theorem wave_source_single_block (ops : list Wave.op) (s : Wave.WaveSource) :
  (Wave.blocks_returned (fst (Wave.run_ops tomono ops s)) <= 1)%nat.
Proof.
  revert s. induction ops as [|o ops IH]; intros s; [cbn; lia|].
  cbn [Wave.run_ops].
  destruct (Wave.step tomono o s) as [ob s'] eqn:Hstep.
  pose proof (IH s') as Hrest. pose proof (no_block_once_returned ops s') as Hnone.
  destruct (Wave.run_ops tomono ops s') as [obs' s'']. cbn [fst] in *.
  destruct ob as [r | [blk|e] | r]; cbn [Wave.blocks_returned]; try assumption.
  rewrite Hnone; [lia|].
  destruct o as [| | |w]; cbn [Wave.step] in Hstep.
  - destruct (Wave.start s); discriminate.
  - destruct (Wave.stop s); discriminate.
  - unfold Wave.source_anext, Wave._next_block in Hstep.
    destruct (Wave._block_returned s); [discriminate|].
    destruct (Wave._get_block _); [|discriminate].
    injection Hstep as _ <-. reflexivity.
  - destruct (Wave.block_next tomono w s) as [[? ?]|]; discriminate.
Qed.

Lemma length_set_nth {A : Type} (l : list A) :
  forall (i : nat) (x : A), length (set_nth i x l) = length l.
Proof.
  induction l as [|a l IH]; intros [|i] x; cbn; try reflexivity.
  now rewrite IH.
Qed.

Lemma next_chunk_keeps_readers (st : list Wave_read * Wave._WaveAudioBlock) :
  length (fst (snd (Wave._next_chunk tomono st))) = length (fst st).
Proof.
  destruct st as [rs b]. unfold Wave._next_chunk.
  destruct (Wave.b_opened b) as [o|]; [|reflexivity].
  destruct (nth_error rs (Wave.o_wave_fp o)) as [fp|]; [|reflexivity].
  destruct (readframes fp (Wave._nframes b)) as [[frames|e] fp']; cbn [fst snd].
  - destruct (if Wave.o_channels o =? 2 then tomono frames (Wave.o_width o)
              else Ok frames) as [frames'|e]; cbn [fst snd].
    + destruct (len frames' =? 0); cbn; apply length_set_nth.
    + apply length_set_nth.
  - apply length_set_nth.
Qed.

Lemma step_keeps_started (o : Wave.op) (s : Wave.WaveSource) :
  Wave.started s -> Wave.started (snd (Wave.step tomono o s)).
Proof.
  intros (q & op & Hq & Hop & Hlt). destruct o as [| | |w]; cbn [Wave.step].
  - unfold Wave.start.
    destruct (wav_nchannels (Wave._wave_path s) <=? 2); cbn [snd];
      (eexists; eexists; cbn; repeat split; rewrite length_app; cbn; lia).
  - unfold Wave.stop. rewrite Hq, Hop. cbn [snd].
    eexists; eexists; cbn; repeat split.
    destruct (nth_error (Wave.readers s) (Wave.o_wave_fp op));
      [now rewrite length_set_nth | assumption].
  - unfold Wave.source_anext, Wave._next_block.
    destruct (Wave._block_returned s); cbn [snd].
    + exists q, op. auto.
    + destruct (Wave._get_block _); cbn [snd]; exists q, op; cbn; auto.
  - unfold Wave.block_next.
    destruct (Wave._last_block s) as [b|]; cbn [snd]; [|exists q, op; auto].
    destruct (block_anext w _) as [r pb] eqn:Hanext. cbn [snd].
    exists q, op. cbn. repeat split; try assumption.
    unfold block_anext in Hanext. cbn [stopped impl] in Hanext.
    destruct (stopped b).
    + injection Hanext as _ <-. exact Hlt.
    + destruct w.
      * pose proof (next_chunk_keeps_readers (Wave.readers s, impl b)) as Hlen.
        unfold next_chunk, Wave.producer in Hanext.
        destruct (Wave._next_chunk tomono (Wave.readers s, impl b)) as [r1 st1].
        cbn [fst snd] in Hlen.
        destruct r1 as [c|[]]; injection Hanext as _ <-; cbn; lia.
      * injection Hanext as _ <-. exact Hlt.
Qed.

Lemma run_ops_keeps_started (ops : list Wave.op) :
  forall s, Wave.started s -> Wave.started (snd (Wave.run_ops tomono ops s)).
Proof.
  induction ops as [|o ops IH]; intros s Hs; [exact Hs|].
  cbn [Wave.run_ops]. pose proof (step_keeps_started o s Hs) as Hs'.
  destruct (Wave.step tomono o s) as [ob s']. cbn [snd] in Hs'.
  specialize (IH s' Hs'). now destruct (Wave.run_ops tomono ops s').
Qed.

(** X21. Listening to a wave source over a file of at most two channels,
    whatever the body does with the source and its block, leaves the source
    not running, its block (if it returned one) ended, and its reader
    closed. *)
Theorem listen_tears_down (s : Wave.WaveSource) (ops : list Wave.op) :
  wav_nchannels (Wave._wave_path s) <= 2 ->
  let r := Wave.listen s (fun s1 => let (o, s2) := Wave.run_ops tomono ops s1 in
                                    (Ok o, s2)) in
  fst r = Ok (fst (Wave.run_ops tomono ops (snd (Wave.start s)))) /\
  Wave.running (snd r) = false /\
  (forall b, Wave._last_block (snd r) = Some b -> ended b = true) /\
  (exists fp, Wave.current_reader (snd r) = Some fp /\ fp_closed fp = true).
Proof.
  intros Hch. cbv zeta. unfold Wave.listen.
  assert (Hstart : fst (Wave.start s) = Ok tt /\ Wave.started (snd (Wave.start s))).
  { unfold Wave.start. replace (_ <=? 2) with true by (symmetry; now apply Z.leb_le).
    split; [reflexivity|]. eexists; eexists; cbn; repeat split.
    rewrite length_app. cbn. lia. }
  destruct (Wave.start s) as [r1 s1]. cbn [fst snd] in *.
  destruct Hstart as [-> Hs1].
  pose proof (run_ops_keeps_started ops s1 Hs1) as Hs2.
  destruct (Wave.run_ops tomono ops s1) as [o s2]. cbn [fst snd] in *.
  destruct Hs2 as (q & op & Hq & Hop & Hlt).
  unfold Wave.stop. rewrite Hq, Hop. cbn [fst snd].
  destruct (nth_error (Wave.readers s2) (Wave.o_wave_fp op)) as [fp|] eqn:Hfp.
  2:{ apply nth_error_None in Hfp. lia. }
  repeat split.
  - cbn. intros b Hb. destruct (Wave._last_block s2); [|discriminate].
    cbn in Hb. injection Hb as <-. reflexivity.
  - exists (wave_close fp). unfold Wave.current_reader. cbn.
    split; [|reflexivity]. eapply nth_error_set_nth. eassumption.
Qed.

(** X22. Listening to a wave source over a file of more than two channels
    raises [AssertionError] from [start()], after the source has been set
    running and the file opened; [stop()] is not called, so the source
    stays running with its reader open. *)
Theorem listen_fails_open {A : Type} (s : Wave.WaveSource)
        (body : Wave.WaveSource -> result A * Wave.WaveSource) :
  2 < wav_nchannels (Wave._wave_path s) ->
  fst (Wave.listen s body) = Raise AssertionError /\
  Wave.running (snd (Wave.listen s body)) = true /\
  Wave.current_reader (snd (Wave.listen s body))
  = Some (wave_open (Wave._wave_path s)).
Proof.
  intros Hch. unfold Wave.listen, Wave.start.
  replace (_ <=? 2) with false by (symmetry; apply Z.leb_gt; lia).
  cbn. repeat split. unfold Wave.current_reader. cbn.
  rewrite nth_error_app2 by lia. now rewrite Nat.sub_diag.
Qed.

(** X23. Before [start()], [stop()] raises [AttributeError]; so does
    [__anext__] on a wave source without [chunk_frames], and it uses up
    the only block of the source: after [start()] the source raises
    [StopAsyncIteration]. *)
Theorem wave_block_before_start (file : WaveFile) (chunk_frames : option Z) :
  fst (Wave.stop (Wave.init file chunk_frames)) = Raise AttributeError /\
  fst (Wave.source_anext (Wave.init file None)) = Raise AttributeError /\
  fst (Wave.source_anext
         (snd (Wave.start (snd (Wave.source_anext (Wave.init file None))))))
  = Raise StopAsyncIteration.
Proof.
  repeat split. unfold Wave.start.
  destruct (wav_nchannels _ <=? 2); reflexivity.
Qed.

End WaveProperties.

Lemma wave_source_plays_file_witness :
  exists s2,
    fst (fst (Wave.play tomono_left 501 s2))
    = [mkAudioChunk 0 (repeat x01 200) 2 16000;
       mkAudioChunk 0 (repeat x02 200) 2 16000;
       mkAudioChunk 0 (repeat x03 100) 2 16000] /\
    concat (map audio (fst (fst (Wave.play tomono_left 501 s2)))) = wav_data mono_file.
Proof.
  destruct (wave_source_plays_file tomono_left mono_file 100)
    as (blk & s1 & s2 & Hstart & Hnext & _ & Hcat & _).
  - reflexivity.
  - reflexivity.
  - reflexivity.
  - exists s2. split; [|exact Hcat].
    vm_compute in Hstart. injection Hstart as <-.
    vm_compute in Hnext. injection Hnext as _ <-.
    vm_compute. reflexivity.
Defined.

Lemma wave_source_default_whole_file_witness :
  exists s2 s3,
    Wave.play tomono_left 2 s2
    = ([mkAudioChunk 0 (wav_data mono_file) 2 16000], Some StopAsyncIteration, s3).
Proof.
  destruct (wave_source_default_whole_file tomono_left mono_file)
    as (blk & s1 & s2 & s3 & _ & _ & Hplay & _).
  - reflexivity.
  - reflexivity.
  - discriminate.
  - exists 250. reflexivity.
  - exists s2, s3. exact Hplay.
Defined.

Lemma listen_tears_down_witness :
  Wave.running
    (snd (Wave.listen (Wave.init mono_file (Some 100))
                      (fun s1 =>
                         let (o, s2) :=
                           Wave.run_ops tomono_left
                                        [Wave.op_anext; Wave.op_block_next ChunkFirst] s1 in
                         (Ok o, s2))))
  = false.
Proof.
  apply (listen_tears_down tomono_left (Wave.init mono_file (Some 100))
           [Wave.op_anext; Wave.op_block_next ChunkFirst]).
  vm_compute. discriminate.
Defined.

Lemma listen_fails_open_witness :
  fst (Wave.listen (Wave.init surround_file None)
                   (fun s1 => (Ok tt, s1))) = Raise AssertionError /\
  Wave.running (snd (Wave.listen (Wave.init surround_file None)
                                 (fun s1 => (Ok tt, s1)))) = true.
Proof.
  destruct (listen_fails_open (Wave.init surround_file None) (fun s1 => (Ok tt, s1)))
    as (Hr & Hrun & _).
  - reflexivity.
  - split; assumption.
Defined.

(** ** The rate converter from block to block *)

(** X17. Every block that the rate converter makes from a block of its
    source converts it from an unset filter state: the state is carried
    from chunk to chunk within a block and not from one block to the
    next. *)
Theorem rate_convert_restarts_per_block (RState : Type)
        (ratecv : bytes -> Z -> Z -> Z -> Z -> option RState -> result (bytes * RState))
        (p : RateConvertSource) (b : list AudioChunk) (rest : list (list AudioChunk)) :
  src_blocks (rc_source p) = b :: rest ->
  exists blk p',
    rate_convert_next_block p = (Ok blk, p') /\
    src_blocks (rc_source p') = rest /\
    let run := RateConvert.run RState ratecv (S (length b)) blk in
    let spec := RateConvert.threaded RState ratecv (rc_n_channels p) (rc_out_rate p)
                                     None b in
    fst (fst run) = fst (fst spec) /\
    snd (fst run) = Some (snd (fst spec)) /\
    RateConvert._state (impl (snd run)) = snd spec.
Proof.
  intros Hb. unfold rate_convert_next_block, source_anext. rewrite Hb.
  eexists. eexists. split; [reflexivity|]. split; [reflexivity|].
  unfold RateConvert.init.
  apply (rate_convert_drain RState ratecv (rc_n_channels p) (rc_out_rate p) b None).
  lia.
Qed.

Lemma rate_convert_restarts_per_block_witness :
  exists blk p',
    rate_convert_next_block
      (mkRateConvertSource (mkReplaySource true [three_hundreds; three_hundreds]) 1 8000)
    = (Ok blk, p') /\
    RateConvert._state (impl (snd (RateConvert.run Z ratecv_count 4 blk))) = Some 600 /\
    exists blk' p'',
      rate_convert_next_block p' = (Ok blk', p'') /\
      RateConvert._state (impl (snd (RateConvert.run Z ratecv_count 4 blk'))) = Some 600.
Proof.
  destruct (rate_convert_restarts_per_block Z ratecv_count
              (mkRateConvertSource (mkReplaySource true [three_hundreds; three_hundreds])
                                   1 8000)
              three_hundreds [three_hundreds] eq_refl)
    as (blk & p' & Hnext & Hrest & _ & _ & Hstate).
  exists blk, p'. split; [exact Hnext|]. split; [exact Hstate|].
  destruct (rate_convert_restarts_per_block Z ratecv_count p'
              three_hundreds [] Hrest)
    as (blk' & p'' & Hnext' & _ & _ & _ & Hstate').
  exists blk', p''. split; [exact Hnext'|].
  injection Hnext as _ <-. exact Hstate'.
Defined.
